(** * MaltesePet: the animation store and manager of [puppy_pet.py]

    A shallow embedding of [GifManager] and of the [PetWindow] handlers that
    drive it (next animation, delete, reorder, import), with the properties
    of the natural-language specification stated over it.

    Modelling conventions.
    - A path is the string Python sees.  Both [/] and the backslash separate
      components, as on the Windows target of the program ([ntpath]); this
      coincides with [posixpath] on paths that hold no backslash.
    - The disk is a list of regular files in enumeration order (the order in
      which [glob] yields them), a list of directories, and the content of
      [config.json].  File contents other than the config are not modelled:
      a copy creates the target path.
    - All paths are absolute and free of [.] and [..] components.
    - [glob_gifs] lists regular files and [mkdir] always goes through;
      [Path.glob] also yields directories named [*.gif] and [Path.mkdir]
      raises when a file stands in the way.  The properties that depend on
      the difference carry [no_gif_directories] or [roots_creatable].
    - [json.load] and [json.dump] are library code: the config file holds
      either text that does not parse or text denoting a JSON value. *)

From Stdlib Require Import List String Ascii Bool Arith ZArith Lia Permutation.
Import ListNotations.
Open Scope string_scope.
Open Scope list_scope.
Set Warnings "-register-all".

(** ** Paths *)

Definition slash : ascii := "047"%char.
Definition backslash : ascii := "092"%char.

Definition is_sep (c : ascii) : bool :=
  Ascii.eqb c slash || Ascii.eqb c backslash.

(** [s.replace('\\', '/')] *)
Fixpoint normalize (s : string) : string :=
  match s with
  | EmptyString => EmptyString
  | String c r =>
      String (if Ascii.eqb c backslash then slash else c) (normalize r)
  end.

Fixpoint has_sep (s : string) : bool :=
  match s with
  | EmptyString => false
  | String c r => is_sep c || has_sep r
  end.

(** [os.path.basename]: what follows the last separator. *)
Fixpoint basename (s : string) : string :=
  match s with
  | EmptyString => EmptyString
  | String c r => if is_sep c || has_sep r then basename r else s
  end.

(** [os.path.dirname]: what precedes the last separator. *)
Fixpoint dirname (s : string) : string :=
  match s with
  | EmptyString => EmptyString
  | String c r => if has_sep r then String c (dirname r) else EmptyString
  end.

(** Trailing separators do not change the directory a path denotes. *)
Fixpoint rstrip_sep (s : string) : string :=
  match s with
  | EmptyString => EmptyString
  | String c r =>
      match rstrip_sep r with
      | EmptyString => if is_sep c then EmptyString else String c EmptyString
      | r' => String c r'
      end
  end.

(** [Path(dir) / name]; joining the empty name gives the directory back. *)
Definition join (dir name : string) : string :=
  if String.eqb name "" then dir else String.append dir (String slash name).

(** The pattern [*.gif] of [Path.glob]. *)
Definition is_gif (name : string) : bool :=
  String.eqb (substring (String.length name - 4) 4 name) ".gif".

(** Python's [x in l] and [l.index(x)] on lists of strings. *)
Definition str_in (x : string) (l : list string) : bool :=
  existsb (String.eqb x) l.

Fixpoint index_of (x : string) (l : list string) : option nat :=
  match l with
  | [] => None
  | y :: r =>
      if String.eqb y x then Some 0
      else match index_of x r with
           | Some i => Some (S i)
           | None => None
           end
  end.

(** [l.remove(x)]: drops the first occurrence; [None] is [ValueError]. *)
Fixpoint list_remove (x : string) (l : list string) : option (list string) :=
  match l with
  | [] => None
  | y :: r =>
      if String.eqb y x then Some r
      else match list_remove x r with
           | Some r' => Some (y :: r')
           | None => None
           end
  end.

(** ** JSON values and the config file *)

Inductive json : Type :=
| JNull
| JBool (b : bool)
| JNum (n : Z)
| JStr (s : string)
| JArr (l : list json)
| JObj (kv : list (string * json)).

(** What [config.json] holds: text [json.load] rejects, or a JSON value. *)
Inductive file_content : Type :=
| Garbage (raw : string)
| Json (j : json).

(** [dict.get(key)] on a parsed object: the last binding of a key wins. *)
Fixpoint dict_get (key : string) (kv : list (string * json)) : option json :=
  match kv with
  | [] => None
  | (k, v) :: r =>
      match dict_get key r with
      | Some v' => Some v'
      | None => if String.eqb k key then Some v else None
      end
  end.

(** A JSON array of strings read as a sequence of paths. *)
Fixpoint as_strings (l : list json) : option (list string) :=
  match l with
  | [] => Some []
  | JStr s :: r =>
      match as_strings r with
      | Some r' => Some (s :: r')
      | None => None
      end
  | _ :: _ => None
  end.

Definition as_order (v : json) : option (list string) :=
  match v with
  | JArr l => as_strings l
  | _ => None
  end.

(** ** The disk *)

Record Disk : Type := mkDisk {
  files : list string;
  dirs : list string;
  config : option file_content;
  config_writable : bool
}.

Definition same_path (a b : string) : bool :=
  String.eqb (normalize a) (normalize b).

Definition is_file (d : Disk) (p : string) : bool :=
  existsb (fun f => same_path f p) (files d).

Definition is_dir (d : Disk) (p : string) : bool :=
  existsb (fun x => same_path (rstrip_sep x) (rstrip_sep p)) (dirs d).

(** [os.path.exists] and [Path.exists] *)
Definition path_exists (d : Disk) (p : string) : bool :=
  is_file d p || is_dir d p.

(** [dir.glob('*.gif')], each result rendered with [str], on a root that
    holds no directory under such a name: [Path.glob] would yield those
    too (see [gif_directories]). *)
Definition glob_gifs (d : Disk) (dir : string) : list string :=
  filter (fun f => same_path (dirname f) dir && is_gif (basename f)) (files d).

(** [os.remove] of a regular file. *)
Definition os_remove (d : Disk) (p : string) : Disk :=
  mkDisk (filter (fun f => negb (same_path f p)) (files d))
         (dirs d) (config d) (config_writable d).

(** [shutil.copy2(src, target)] towards a path that does not exist yet. *)
Definition copy_file (d : Disk) (target : string) : Disk :=
  mkDisk (files d ++ [target]) (dirs d) (config d) (config_writable d).

(** [dir.mkdir(parents=True, exist_ok=True)] where it goes through; it
    raises when a regular file stands in the way (see [blocks_mkdir]). *)
Definition mkdir (d : Disk) (p : string) : Disk :=
  if is_dir d p then d
  else mkDisk (files d) (dirs d ++ [p]) (config d) (config_writable d).

Definition write_config (d : Disk) (c : file_content) : Disk :=
  mkDisk (files d) (dirs d) (Some c) (config_writable d).

(** ** GifManager *)

Record GifManager : Type := mkGifManager {
  gif_dir : string;
  user_gif_dir : string;
  default_gif : option string;
  custom_order : list string
}.

Definition with_order (m : GifManager) (o : list string) : GifManager :=
  mkGifManager (gif_dir m) (user_gif_dir m) (default_gif m) o.

Definition with_default (m : GifManager) (g : option string) : GifManager :=
  mkGifManager (gif_dir m) (user_gif_dir m) g (custom_order m).

Inductive exn : Type :=
| FileNotFoundError
| ValueError
| OSError.

Inductive outcome (A : Type) : Type :=
| Returned (a : A)
| Raised (e : exn).
Arguments Returned {A} a.
Arguments Raised {A} e.

(** The result of reading the config into a store.  [IllTyped v]: the file
    is a mapping whose [gif_order] is [v], not a sequence of strings; Python
    keeps [v] as it is, and such a store is outside this model. *)
Inductive loaded : Type :=
| Loaded (m : GifManager)
| IllTyped (v : json).

Definition load_config (d : Disk) (m : GifManager) : loaded :=
  match config d with
  | None => Loaded m
  | Some (Garbage _) => Loaded (with_order m [])
  | Some (Json (JObj kv)) =>
      match dict_get "gif_order" kv with
      | None => Loaded (with_order m [])
      | Some v =>
          match as_order v with
          | Some o => Loaded (with_order m o)
          | None => IllTyped v
          end
      end
  | Some (Json _) => Loaded (with_order m [])
  end.

Definition config_of (m : GifManager) : file_content :=
  Json (JObj [("gif_order", JArr (map JStr (custom_order m)))]).

Definition save_config (d : Disk) (m : GifManager) : Disk :=
  if config_writable d then write_config d (config_of m) else d.

(** [GifManager.__init__] once the two roots are resolved. *)
Definition GifManager_init (gd ud : string) (d : Disk) : Disk * loaded :=
  let d1 := mkdir (mkdir d gd) ud in
  (d1, load_config d1 (mkGifManager gd ud None [])).

(** The files [get_gif_list] discovers, before any reordering. *)
Definition discovered (d : Disk) (m : GifManager) : list string :=
  map normalize (glob_gifs d (gif_dir m))
  ++ (if negb (same_path (user_gif_dir m) (gif_dir m))
      then map normalize (glob_gifs d (user_gif_dir m))
      else []).

Definition get_gif_list (d : Disk) (m : GifManager)
  : list string * GifManager :=
  let gif_files := discovered d m in
  match custom_order m with
  | [] => (gif_files, m)
  | _ :: _ =>
      let order1 := map normalize (custom_order m) in
      let order2 := filter (fun gif => str_in gif gif_files) order1 in
      let other_gifs :=
        filter (fun gif => negb (str_in gif order2)) gif_files in
      (order2 ++ other_gifs, with_order m order2)
  end.

(** Python's [not self.default_gif]. *)
Definition unset (g : option string) : bool :=
  match g with
  | None => true
  | Some s => String.eqb s ""
  end.

Definition get_default_gif (d : Disk) (m : GifManager)
  : outcome string * GifManager :=
  if unset (default_gif m) then
    let '(gif_files, m1) := get_gif_list d m in
    match gif_files with
    | g :: _ => (Returned g, with_default m1 (Some g))
    | [] => (Raised FileNotFoundError, m1)
    end
  else
    match default_gif m with
    | Some g => (Returned g, m)
    | None => (Raised FileNotFoundError, m)
    end.

Definition add_gif (d : Disk) (m : GifManager) (gif_path : string)
  : outcome string * Disk :=
  if negb (path_exists d gif_path) then (Raised FileNotFoundError, d)
  else
    let filename := basename gif_path in
    let target_path := join (user_gif_dir m) filename in
    if path_exists d target_path then (Returned target_path, d)
    else if is_file d gif_path
         then (Returned target_path, copy_file d target_path)
         else (Raised OSError, d).

(** The loop [for path in order[:]: if cond(path): order.remove(path)]. *)
Fixpoint purge_loop (cond : string -> bool) (copy : list string)
  (live : option (list string)) : option (list string) :=
  match copy with
  | [] => live
  | path :: rest =>
      if cond path
      then purge_loop cond rest
             (match live with
              | Some l => list_remove path l
              | None => None
              end)
      else purge_loop cond rest live
  end.

Definition purge (cond : string -> bool) (order : list string)
  : option (list string) :=
  purge_loop cond order (Some order).

Definition opt_str_eqb (o : option string) (s : string) : bool :=
  match o with
  | Some g => String.eqb g s
  | None => false
  end.

(** The tail of [remove_gif]: save, delete the file, reset the default. *)
Definition finish_removal (d : Disk) (m : GifManager) (target : string)
  (reset : bool) : outcome bool * Disk * GifManager :=
  let d1 := save_config d m in
  if is_file d1 target
  then (Returned true, os_remove d1 target,
        if reset then with_default m None else m)
  else (Raised OSError, d1, m).

Fixpoint remove_by_name (d : Disk) (m : GifManager) (filename : string)
  (roots : list string) : outcome bool * Disk * GifManager :=
  match roots with
  | [] => (Returned false, d, m)
  | directory :: rest =>
      let target := join directory filename in
      if path_exists d target then
        match purge (fun path => String.eqb (basename path) filename)
                    (custom_order m) with
        | Some o =>
            finish_removal d (with_order m o) target
              (negb (unset (default_gif m))
               && match default_gif m with
                  | Some g => String.eqb (basename g) filename
                  | None => false
                  end)
        | None => (Raised ValueError, d, m)
        end
      else remove_by_name d m filename rest
  end.

(** The test of the first loop of [remove_gif]. *)
Definition names_deleted (gif_path path : string) : bool :=
  String.eqb (normalize path) gif_path
  || String.eqb (basename path) (basename gif_path).

Definition remove_gif (d : Disk) (m : GifManager) (gif_path : string)
  : outcome bool * Disk * GifManager :=
  let gif_path := normalize gif_path in
  if path_exists d gif_path then
    match purge (names_deleted gif_path) (custom_order m) with
    | Some o =>
        finish_removal d (with_order m o) gif_path
          (opt_str_eqb (default_gif m) gif_path)
    | None => (Raised ValueError, d, m)
    end
  else
    remove_by_name d m (basename gif_path) [gif_dir m; user_gif_dir m].

Definition set_custom_order (d : Disk) (m : GifManager) (order : list string)
  : Disk * GifManager :=
  let m1 := with_order m order in
  (save_config d m1, m1).

(** ** PetWindow *)

(** The part of the window the handlers read and write: the manager, the
    file name of the [QMovie], and the paths behind the animation menu. *)
Record Pet : Type := mkPet {
  disk : Disk;
  mgr : GifManager;
  movie : string;
  menu : list string
}.

Inductive dialog : Type :=
| NoCurrentGif
| LastItemProtected
| CannotFindCurrent
| DeleteSucceeded
| DeleteFailed
| NoGifFiles
| InvalidIndex
| CountMismatch
| NotANumber
| OrderUpdated.

(** [os.path.abspath]: the identity on absolute paths without [.] or [..],
    up to the separator, which every caller rewrites at once. *)
Definition abspath (p : string) : string := p.

Definition load_animation (gif_path : string) (w : Pet) : Pet :=
  let gif_path := normalize gif_path in
  if path_exists (disk w) gif_path
  then mkPet (disk w) (mgr w) gif_path (menu w)
  else w.

Definition update_animation_menu (w : Pet) : Pet :=
  let '(gif_list, m1) := get_gif_list (disk w) (mgr w) in
  mkPet (disk w) m1 (movie w) gif_list.

(** [random.randint(a, b)]: any integer of [a..b], picked by [seed]. *)
Definition randint (seed a b : nat) : nat := a + seed mod (b - a + 1).

(** The index [switch_to_next_gif] computes on a non-empty list. *)
Definition next_index (seed : nat) (current_gif : string)
  (gif_list : list string) : option nat :=
  if negb (String.eqb current_gif "") && str_in current_gif gif_list then
    match index_of current_gif gif_list with
    | Some current_index => Some ((current_index + 1) mod List.length gif_list)
    | None => None
    end
  else Some (randint seed 0 (List.length gif_list - 1)).

(** Returns the animation handed to [load_animation], if any. *)
Definition switch_to_next_gif (seed : nat) (w : Pet) : option string * Pet :=
  let '(gif_list, m1) := get_gif_list (disk w) (mgr w) in
  let w1 := mkPet (disk w) m1 (movie w) (menu w) in
  match gif_list with
  | [] => (None, w1)
  | _ :: _ =>
      match next_index seed (movie w) gif_list with
      | Some i =>
          match nth_error gif_list i with
          | Some next_gif => (Some next_gif, load_animation next_gif w1)
          | None => (None, w1)
          end
      | None => (None, w1)
      end
  end.

(** The first index whose file name is [name] (the loop with [break]). *)
Fixpoint find_by_name (name : string) (l : list string) : option nat :=
  match l with
  | [] => None
  | g :: r =>
      if String.eqb (basename g) name then Some 0
      else match find_by_name name r with
           | Some i => Some (S i)
           | None => None
           end
  end.

(** What [delete_current_gif] leaves behind: a message box, nothing, or
    the deferred call [_complete_deletion(current_gif, next_gif)]. *)
Inductive delete_step : Type :=
| Shown (msg : dialog)
| Declined
| Scheduled (gif_to_delete next_gif : string).

Definition delete_current_gif (confirmed : bool) (w : Pet)
  : delete_step * Pet :=
  if String.eqb (movie w) "" then (Shown NoCurrentGif, w)
  else
    let current_gif := normalize (abspath (movie w)) in
    let current_filename := basename current_gif in
    if confirmed then
      let '(gif_list0, m1) := get_gif_list (disk w) (mgr w) in
      let gif_list := map (fun gif => normalize (abspath gif)) gif_list0 in
      let w1 := mkPet (disk w) m1 (movie w) (menu w) in
      if (List.length gif_list <=? 1)%nat then (Shown LastItemProtected, w1)
      else
        match find_by_name current_filename gif_list with
        | None => (Shown CannotFindCurrent, w1)
        | Some current_index =>
            let next_index :=
              if (1 <? List.length gif_list)%nat
              then (current_index + 1) mod List.length gif_list
              else 0 in
            match nth_error gif_list next_index with
            | Some next_gif =>
                (Scheduled current_gif next_gif,
                 mkPet (disk w) m1 "" (menu w))
            | None => (Shown CannotFindCurrent, w1)
            end
        end
    else (Declined, w).

(** [_complete_deletion]; the message box shown, if any, and the window. *)
Definition _complete_deletion (gif_to_delete next_gif : string) (w : Pet)
  : option dialog * Pet :=
  match remove_gif (disk w) (mgr w) gif_to_delete with
  | (Returned true, d1, m1) =>
      let w1 := update_animation_menu (mkPet d1 m1 (movie w) (menu w)) in
      (Some DeleteSucceeded, load_animation next_gif w1)
  | (Returned false, d1, m1) =>
      (Some DeleteFailed, load_animation next_gif (mkPet d1 m1 (movie w) (menu w)))
  | (Raised _, d1, m1) =>
      (None, load_animation next_gif (mkPet d1 m1 (movie w) (menu w)))
  end.

(** What the order dialog gives back: nothing (cancelled or empty text),
    text that [int] rejects, or the numbers typed, still counted from 1. *)
Inductive order_input : Type :=
| Cancelled
| NotNumbers
| Numbers (ns : list Z).

Definition bad_index (len : nat) (idx : Z) : bool :=
  (idx <? 0)%Z || (Z.of_nat len <=? idx)%Z.

Definition customize_gif_order (input : order_input) (w : Pet)
  : option dialog * Pet :=
  let '(gif_list, m1) := get_gif_list (disk w) (mgr w) in
  let w1 := mkPet (disk w) m1 (movie w) (menu w) in
  match gif_list with
  | [] => (Some NoGifFiles, w1)
  | _ :: _ =>
      match input with
      | Cancelled => (None, w1)
      | NotNumbers => (Some NotANumber, w1)
      | Numbers ns =>
          let indices := map (fun n => (n - 1)%Z) ns in
          if existsb (bad_index (List.length gif_list)) indices
          then (Some InvalidIndex, w1)
          else if negb (List.length indices =? List.length gif_list)%nat
          then (Some CountMismatch, w1)
          else
            let new_order :=
              map (fun idx => nth (Z.to_nat idx) gif_list "") indices in
            let '(d2, m2) := set_custom_order (disk w) m1 new_order in
            (Some OrderUpdated,
             update_animation_menu (mkPet d2 m2 (movie w) (menu w)))
      end
  end.

(** [import_gif] once a file has been picked in the dialog. *)
Definition import_gif (file_path : string) (w : Pet) : Pet :=
  match add_gif (disk w) (mgr w) file_path with
  | (Returned new_gif_path, d1) =>
      update_animation_menu
        (load_animation new_gif_path (mkPet d1 (mgr w) (movie w) (menu w)))
  | (Raised _, d1) => mkPet d1 (mgr w) (movie w) (menu w)
  end.

(** ** Start-up *)

(** [PetWindow.__init__], for what concerns the animations: a manager of
    its own, the menu filled by [init_context_menu], and the default
    animation loaded unless [get_default_gif] raises.  [None]: the config
    holds an order the typed store cannot hold (see [loaded]). *)
Definition PetWindow_init (gd ud : string) (d : Disk) : option Pet :=
  let '(d1, l) := GifManager_init gd ud d in
  match l with
  | IllTyped _ => None
  | Loaded m0 =>
      let w1 := update_animation_menu (mkPet d1 m0 "" []) in
      match get_default_gif (disk w1) (mgr w1) with
      | (Returned g, m2) =>
          Some (load_animation g (mkPet (disk w1) m2 (movie w1) (menu w1)))
      | (Raised _, m2) => Some (mkPet (disk w1) m2 (movie w1) (menu w1))
      end
  end.

(** [Image.save(path)]: creates the file, or overwrites it. *)
Definition save_image (d : Disk) (target : string) : Disk :=
  if is_file d target then d else copy_file d target.

(** [ensure_gif_exists], with Pillow installed; [saved] tells whether
    drawing and saving the default animation went through (any exception
    there is caught).  [None] as for [PetWindow_init]. *)
Definition ensure_gif_exists (gd ud : string) (saved : bool) (d : Disk)
  : option Disk :=
  let '(d1, l) := GifManager_init gd ud d in
  match l with
  | IllTyped _ => None
  | Loaded m =>
      match fst (get_gif_list d1 m) with
      | [] =>
          if saved then Some (save_image d1 (join ud "default_dog.gif"))
          else Some d1
      | _ :: _ => Some d1
      end
  end.


(** ** The delete flow and the timer, end to end *)


(** Successive timeouts of [auto_switch_timer], one seed per timeout. *)
Fixpoint timeouts (seeds : list nat) (w : Pet) : Pet :=
  match seeds with
  | [] => w
  | seed :: rest => timeouts rest (snd (switch_to_next_gif seed w))
  end.

(** The auto-switch settings; [auto_switch_timer] is the interval the
    [QTimer] runs with, [None] while it is stopped. *)
Record AutoSwitch : Type := mkAutoSwitch {
  auto_switch_enabled : bool;
  auto_switch_interval : Z;
  auto_switch_timer : option Z
}.

Definition AutoSwitch_init : AutoSwitch :=
  mkAutoSwitch false (2 * 60 * 1000)%Z None.

Definition toggle_auto_switch (enabled : bool) (a : AutoSwitch) : AutoSwitch :=
  mkAutoSwitch enabled (auto_switch_interval a)
    (if enabled then Some (auto_switch_interval a) else None).

Definition set_auto_switch_interval (seconds : Z) (a : AutoSwitch)
  : AutoSwitch :=
  let interval := (seconds * 1000)%Z in
  mkAutoSwitch (auto_switch_enabled a) interval
    (if auto_switch_enabled a then Some interval else auto_switch_timer a).

(** [closeEvent] stops the timer. *)
Definition closeEvent (a : AutoSwitch) : AutoSwitch :=
  mkAutoSwitch (auto_switch_enabled a) (auto_switch_interval a) None.

Inductive switch_action : Type :=
| ToggleAutoSwitch (enabled : bool)
| PickInterval (seconds : Z).

Definition auto_switch_step (a : AutoSwitch) (act : switch_action)
  : AutoSwitch :=
  match act with
  | ToggleAutoSwitch enabled => toggle_auto_switch enabled a
  | PickInterval seconds => set_auto_switch_interval seconds a
  end.

(** The timer runs exactly when auto-switch is enabled, with the interval
    of the settings. *)
Definition timer_follows_settings (a : AutoSwitch) : Prop :=
  auto_switch_timer a
  = if auto_switch_enabled a then Some (auto_switch_interval a) else None.

(** ** Dragging the window *)

Inductive mouse_button : Type :=
| LeftButton
| RightButton
| MiddleButton.

Record Drag : Type := mkDrag {
  window_pos : Z * Z;
  is_dragging : bool;
  drag_position : Z * Z
}.

(** Subtraction of [QPoint]s. *)
Definition point_sub (a b : Z * Z) : Z * Z :=
  (fst a - fst b, snd a - snd b)%Z.

(** The right button opens the context menu and moves nothing. *)
Definition mousePressEvent (b : mouse_button) (global : Z * Z) (s : Drag)
  : Drag :=
  match b with
  | LeftButton =>
      mkDrag (window_pos s) true (point_sub global (window_pos s))
  | _ => s
  end.

Definition mouseReleaseEvent (b : mouse_button) (s : Drag) : Drag :=
  match b with
  | LeftButton => mkDrag (window_pos s) false (drag_position s)
  | _ => s
  end.

Definition mouseMoveEvent (global : Z * Z) (s : Drag) : Drag :=
  if is_dragging s
  then mkDrag (point_sub global (drag_position s)) true (drag_position s)
  else s.

Definition mouse_moves (globals : list (Z * Z)) (s : Drag) : Drag :=
  fold_left (fun st g => mouseMoveEvent g st) globals s.

(** ** The tray icon *)

(** A pattern [*ext] of [Path.glob], as [is_gif] for [*.gif]. *)
Definition has_ext (ext name : string) : bool :=
  String.eqb
    (substring (String.length name - String.length ext) (String.length ext)
               name)
    ext.

Definition glob_ext (d : Disk) (dir ext : string) : list string :=
  filter (fun f => same_path (dirname f) dir && has_ext ext (basename f))
         (files d).

Inductive tray_icon : Type :=
| IconFile (path : string)
| DrawnIcon.

(** [TrayIcon.setup_icon]; [bundled_icons] is [resources/icons] next to the
    program and [desktop_icons] the icon directory under the user's desktop. *)
Definition setup_icon (bundled_icons desktop_icons : string) (d : Disk)
  : tray_icon * Disk :=
  let doraemon_icon := join bundled_icons "doraemon.jpg" in
  if path_exists d doraemon_icon then (IconFile doraemon_icon, d)
  else
    let '(icon_dir, d1) :=
      if path_exists d desktop_icons then (desktop_icons, d)
      else if path_exists d bundled_icons then (bundled_icons, d)
      else (bundled_icons, mkdir d bundled_icons) in
    match glob_ext d1 icon_dir ".jpg" with
    | f :: _ => (IconFile f, d1)
    | [] =>
        match glob_ext d1 icon_dir ".png" ++ glob_ext d1 icon_dir ".ico"
              ++ glob_ext d1 icon_dir ".gif" with
        | f :: _ => (IconFile f, d1)
        | [] => (DrawnIcon, d1)
        end
    end.

(** ** The ordered list, in the words of the specification *)

(** The entries of the custom order that are still among the discovered
    files, in the sequence of the custom order. *)
Definition surviving_order (d : Disk) (m : GifManager) : list string :=
  filter (fun g => str_in g (discovered d m)) (map normalize (custom_order m)).

(** The discovered files the custom order does not name, as discovered. *)
Definition remaining_files (d : Disk) (m : GifManager) : list string :=
  filter (fun g => negb (str_in g (surviving_order d m))) (discovered d m).

(** A disk lists no file twice, whichever separator renders it. *)
Definition disk_wf (d : Disk) : Prop := NoDup (map normalize (files d)).

(** ** A sample installation *)

Definition gifs_root : string := "/pet/resources/gifs".
Definition a_gif : string := "/pet/resources/gifs/a.gif".
Definition b_gif : string := "/pet/resources/gifs/b.gif".

Definition two_gifs : Disk := mkDisk [a_gif; b_gif] [gifs_root] None true.

Definition fresh_manager : GifManager :=
  mkGifManager gifs_root gifs_root None [].

(** The window after the order dialog was answered 1,1 on [two_gifs]:
    the custom order names [a.gif] twice, and [a.gif] is playing. *)
Definition stuck_pet : Pet :=
  mkPet two_gifs (with_order fresh_manager [a_gif; a_gif]) a_gif [].

Definition one_gif : Disk := mkDisk [a_gif] [gifs_root] None true.

Definition import_source : string := "/home/me/Downloads/c.gif".

Definition with_download : Disk :=
  mkDisk [a_gif; import_source] [gifs_root] None true.

Definition user_root : string := "/home/me/AppData/Local/pet/gifs".
Definition user_a_gif : string := "/home/me/AppData/Local/pet/gifs/a.gif".

(** A packaged installation: [a.gif] exists in both roots. *)
Definition two_roots : Disk :=
  mkDisk [a_gif; b_gif; user_a_gif] [gifs_root; user_root] None true.

Definition packaged_manager : GifManager :=
  mkGifManager gifs_root user_root None [user_a_gif; b_gif; a_gif].

(** A config written by a later version: an unknown key next to the order. *)
Definition newer_config : Disk :=
  mkDisk [a_gif; b_gif] [gifs_root]
    (Some (Json (JObj [("theme", JStr "dark");
                       ("gif_order", JArr [JStr b_gif; JStr a_gif])])))
    true.

(** A window on [two_gifs] playing [a.gif]. *)
Definition playing_a : Pet := mkPet two_gifs fresh_manager a_gif [].

(** An installation without any animation, and one with a config. *)
Definition no_gifs : Disk := mkDisk [] [] None true.

(** The manager of [packaged_manager] before any order was chosen. *)
Definition packaged_fresh : GifManager :=
  mkGifManager gifs_root user_root None [].

(** Icon directories: the bundled one holds a png and a jpg. *)
Definition bundled_icons_dir : string := "/pet/resources/icons".
Definition desktop_icons_dir : string := "/home/me/Desktop/pet/icons".

Definition with_icons : Disk :=
  mkDisk ["/pet/resources/icons/dog.png"; "/pet/resources/icons/cat.jpg"]
         [bundled_icons_dir] None true.

(** The window of [playing_a] once [a.gif] is the remembered default. *)
Definition default_a : GifManager :=
  mkGifManager gifs_root gifs_root (Some a_gif) [].

(** [two_gifs] with the root itself given as the path to remove. *)
Definition root_as_path : string := "/pet/resources/gifs/".

(** ** Where the disk model and the file system calls agree *)

(** The directories a root holds under a name [*.gif]: [Path.glob] yields
    them along with the files, [glob_gifs] does not. *)
Definition gif_directories (d : Disk) (dir : string) : list string :=
  filter (fun x => same_path (dirname (rstrip_sep x)) dir
                   && is_gif (basename (rstrip_sep x)))
         (dirs d).


(** A regular file stands at [p] or at one of its ancestors; [Path.mkdir]
    then raises even with [parents=True, exist_ok=True]. *)
Definition blocks_mkdir (d : Disk) (p : string) : bool :=
  existsb (fun f => same_path (rstrip_sep f) (rstrip_sep p)
                    || String.prefix
                         (String.append (normalize (rstrip_sep f))
                                        (String slash EmptyString))
                         (normalize p))
          (files d).

(** [Path.mkdir(parents=True, exist_ok=True)] with its failure. *)
Definition Path_mkdir (d : Disk) (p : string) : outcome Disk :=
  if blocks_mkdir d p then Raised OSError else Returned (mkdir d p).

(** Both roots can be created, or are there already: [GifManager()] does
    not raise. *)
Definition roots_creatable (d : Disk) (gd ud : string) : Prop :=
  blocks_mkdir d gd = false /\ blocks_mkdir d ud = false.




(** * Properties *)

(** ** Strings and paths *)

Lemma str_in_In (x : string) (l : list string) :
  str_in x l = true <-> In x l.
Proof.
  unfold str_in. rewrite existsb_exists. split.
  - intros [y [Hy Heq]]. apply String.eqb_eq in Heq. now subst.
  - intros H. exists x. split; [assumption | apply String.eqb_refl].
Qed.

Lemma str_in_false (x : string) (l : list string) :
  str_in x l = false <-> ~ In x l.
Proof.
  rewrite <- str_in_In. destruct (str_in x l); split; congruence.
Qed.

Lemma is_sep_normalized (c : ascii) :
  is_sep (if Ascii.eqb c backslash then slash else c) = is_sep c.
Proof.
  destruct (Ascii.eqb c backslash) eqn:E; [| reflexivity].
  apply Ascii.eqb_eq in E. subst. reflexivity.
Qed.

Lemma normalize_idem (s : string) : normalize (normalize s) = normalize s.
Proof.
  induction s as [| c r IH]; simpl; [reflexivity |].
  rewrite IH. destruct (Ascii.eqb c backslash) eqn:E; simpl.
  - reflexivity.
  - now rewrite E.
Qed.

Lemma has_sep_normalize (s : string) : has_sep (normalize s) = has_sep s.
Proof.
  induction s as [| c r IH]; simpl; [reflexivity |].
  now rewrite is_sep_normalized, IH.
Qed.

Lemma dirname_normalize (s : string) :
  dirname (normalize s) = normalize (dirname s).
Proof.
  induction s as [| c r IH]; simpl; [reflexivity |].
  rewrite has_sep_normalize. destruct (has_sep r); simpl; [| reflexivity].
  now rewrite IH.
Qed.

Lemma same_path_eq (a b : string) :
  same_path a b = true <-> normalize a = normalize b.
Proof. unfold same_path. apply String.eqb_eq. Qed.

Lemma normalize_nonempty (s : string) : normalize s = "" -> s = "".
Proof. destruct s; simpl; [reflexivity | discriminate]. Qed.

(** ** What [glob] discovers *)

(** Selecting files keeps their normalized paths distinct. *)
Lemma selected_files_distinct (keep : string -> bool) (fs : list string) :
  NoDup (map normalize fs) -> NoDup (map normalize (filter keep fs)).
Proof.
  intros Hnd. induction fs as [| f fs IH]; simpl in *; [constructor |].
  apply NoDup_cons_iff in Hnd. destruct Hnd as [Hfresh Hnd].
  destruct (keep f); simpl; [| now apply IH].
  apply NoDup_cons_iff. split; [| now apply IH].
  rewrite in_map_iff in *. intros [g [Hg Hin]].
  apply Hfresh. exists g. rewrite filter_In in Hin. tauto.
Qed.

Lemma glob_dirname (d : Disk) (dir x : string) :
  In x (map normalize (glob_gifs d dir)) -> dirname x = normalize dir.
Proof.
  intros H. apply in_map_iff in H. destruct H as [f [Hx Hf]]. subst x.
  apply filter_In in Hf. destruct Hf as [_ Hf].
  apply andb_true_iff in Hf. destruct Hf as [Hdir _].
  apply same_path_eq in Hdir. now rewrite dirname_normalize.
Qed.

Lemma discovered_nonempty (d : Disk) (m : GifManager) (x : string) :
  In x (discovered d m) -> x <> "".
Proof.
  assert (G : forall dir, In x (map normalize (glob_gifs d dir)) -> x <> "").
  { intros dir H E. subst x. apply in_map_iff in H.
    destruct H as [f [Hn Hf]]. apply normalize_nonempty in Hn. subst f.
    apply filter_In in Hf. destruct Hf as [_ Hf].
    apply andb_true_iff in Hf. destruct Hf as [_ Hgif]. discriminate Hgif. }
  unfold discovered. intros H. apply in_app_or in H. destruct H as [H | H].
  - now apply (G (gif_dir m)).
  - destruct (negb (same_path (user_gif_dir m) (gif_dir m)));
      [now apply (G (user_gif_dir m)) | contradiction].
Qed.

Lemma discovered_NoDup (d : Disk) (m : GifManager) :
  disk_wf d -> NoDup (discovered d m).
Proof.
  intros Hwf. unfold discovered.
  destruct (same_path (user_gif_dir m) (gif_dir m)) eqn:E; simpl.
  - rewrite app_nil_r. now apply selected_files_distinct.
  - apply NoDup_app; try now apply selected_files_distinct.
    intros x H1 H2. apply glob_dirname in H1. apply glob_dirname in H2.
    assert (same_path (user_gif_dir m) (gif_dir m) = true) by
      (apply same_path_eq; congruence).
    congruence.
Qed.

(** ** The ordered list *)

Lemma get_gif_list_fst (d : Disk) (m : GifManager) :
  fst (get_gif_list d m) = surviving_order d m ++ remaining_files d m.
Proof.
  unfold get_gif_list, remaining_files, surviving_order.
  destruct (custom_order m) as [| g o]; simpl fst.
  - simpl. symmetry. apply filter_true.
  - reflexivity.
Qed.

Lemma get_gif_list_snd (d : Disk) (m : GifManager) :
  custom_order (snd (get_gif_list d m)) = surviving_order d m.
Proof.
  unfold get_gif_list, surviving_order.
  destruct (custom_order m) as [| g o] eqn:E; simpl; [now rewrite E |].
  reflexivity.
Qed.

Lemma get_gif_list_roots (d : Disk) (m : GifManager) :
  discovered d (snd (get_gif_list d m)) = discovered d m.
Proof.
  unfold get_gif_list. destruct (custom_order m); reflexivity.
Qed.

Lemma filter_idem {A : Type} (p : A -> bool) (l : list A) :
  filter p (filter p l) = filter p l.
Proof. apply forallb_filter_id, forallb_filter. Qed.

Lemma map_normalize_fixed (l : list string) :
  Forall (fun s => normalize s = s) l -> map normalize l = l.
Proof.
  induction 1 as [| s l Hs _ IH]; simpl; [reflexivity |].
  now rewrite Hs, IH.
Qed.

Lemma surviving_order_normalized (d : Disk) (m : GifManager) :
  map normalize (surviving_order d m) = surviving_order d m.
Proof.
  apply map_normalize_fixed, Forall_forall. intros s Hs.
  apply filter_In in Hs. destruct Hs as [Hs _].
  apply in_map_iff in Hs. destruct Hs as [t [Ht _]]. subst s.
  apply normalize_idem.
Qed.

Lemma surviving_order_stable (d : Disk) (m : GifManager) :
  surviving_order d (snd (get_gif_list d m)) = surviving_order d m.
Proof.
  unfold surviving_order at 1.
  rewrite get_gif_list_snd, get_gif_list_roots, surviving_order_normalized.
  unfold surviving_order. apply filter_idem.
Qed.

Lemma get_gif_list_again (d : Disk) (m : GifManager) :
  fst (get_gif_list d (snd (get_gif_list d m))) = fst (get_gif_list d m).
Proof.
  rewrite !get_gif_list_fst. unfold remaining_files.
  now rewrite surviving_order_stable, get_gif_list_roots.
Qed.

Lemma get_gif_list_NoDup (d : Disk) (m : GifManager) :
  disk_wf d -> NoDup (surviving_order d m) -> NoDup (fst (get_gif_list d m)).
Proof.
  intros Hwf Hs. rewrite get_gif_list_fst.
  apply NoDup_app; [assumption | |].
  - apply NoDup_filter. now apply discovered_NoDup.
  - intros x Hx Hr. apply filter_In in Hr. destruct Hr as [_ Hr].
    apply negb_true_iff, str_in_false in Hr. contradiction.
Qed.

(** C1, as amended.  For every disk and custom order, [get_gif_list] returns
    the entries of the custom order that are still among the discovered
    files, in the custom order's sequence, followed by the other discovered
    files in discovery order; calling it again on the same disk returns the
    same list; and the list has no duplicate provided the disk lists no
    file twice and the surviving custom order names no file twice. *)
Theorem get_gif_list_ordered (d : Disk) (m : GifManager) :
  fst (get_gif_list d m) = surviving_order d m ++ remaining_files d m
  /\ fst (get_gif_list d (snd (get_gif_list d m))) = fst (get_gif_list d m)
  /\ (disk_wf d -> NoDup (surviving_order d m) ->
      NoDup (fst (get_gif_list d m))).
Proof.
  split; [apply get_gif_list_fst |].
  split; [apply get_gif_list_again | apply get_gif_list_NoDup].
Qed.

Lemma get_gif_list_ordered_witness :
  disk_wf two_gifs
  /\ NoDup (surviving_order two_gifs (with_order fresh_manager [b_gif; a_gif]))
  /\ fst (get_gif_list two_gifs (with_order fresh_manager [b_gif; a_gif]))
     = [b_gif; a_gif]
  /\ NoDup (fst (get_gif_list two_gifs
                   (with_order fresh_manager [b_gif; a_gif]))).
Proof.
  assert (W : disk_wf two_gifs).
  { unfold disk_wf. vm_compute.
    repeat constructor; simpl; intuition discriminate. }
  assert (S : NoDup (surviving_order two_gifs
                       (with_order fresh_manager [b_gif; a_gif]))).
  { vm_compute. repeat constructor; simpl; intuition discriminate. }
  split; [exact W |]. split; [exact S |]. split; [reflexivity |].
  exact (proj2 (proj2 (get_gif_list_ordered two_gifs
                         (with_order fresh_manager [b_gif; a_gif]))) W S).
Defined.

(** C1, as stated, fails: a custom order that names an existing file twice
    (here what [config.json] holds after the order dialog was given 1,1)
    comes back with that file twice. *)
Lemma get_gif_list_duplicates :
  fst (get_gif_list two_gifs (with_order fresh_manager [a_gif; a_gif]))
  = [a_gif; a_gif; b_gif]
  /\ ~ NoDup (fst (get_gif_list two_gifs
                     (with_order fresh_manager [a_gif; a_gif]))).
Proof.
  split; [reflexivity |].
  intros H. vm_compute in H. inversion H as [| x l Hnotin _]; subst.
  apply Hnotin. left. reflexivity.
Qed.

(** ** The next animation *)

Lemma index_of_nth (x : string) (l : list string) (i : nat) :
  index_of x l = Some i -> nth_error l i = Some x /\ i < List.length l.
Proof.
  revert i. induction l as [| y r IH]; simpl; intros i H; [discriminate |].
  destruct (String.eqb y x) eqn:E.
  - injection H as <-. apply String.eqb_eq in E. subst. simpl. split; [easy | lia].
  - destruct (index_of x r) as [j |]; [| discriminate].
    injection H as <-. destruct (IH j eq_refl) as [Hn Hl]. simpl.
    split; [assumption | lia].
Qed.

Lemma index_of_In (x : string) (l : list string) :
  In x l -> exists i, index_of x l = Some i.
Proof.
  induction l as [| y r IH]; simpl; intros H; [contradiction |].
  destruct (String.eqb y x) eqn:E; [now exists 0 |].
  destruct H as [H | H]; [subst; now rewrite String.eqb_refl in E |].
  destruct (IH H) as [i Hi]. rewrite Hi. now exists (S i).
Qed.

Lemma index_of_NoDup (x : string) (l : list string) (i : nat) :
  NoDup l -> nth_error l i = Some x -> index_of x l = Some i.
Proof.
  intros Hnd. revert i. induction Hnd as [| y r Hnotin _ IH]; intros i H.
  - destruct i; discriminate.
  - simpl. destruct i as [| i]; simpl in H.
    + injection H as ->. now rewrite String.eqb_refl.
    + destruct (String.eqb y x) eqn:E.
      * apply String.eqb_eq in E. subst. apply nth_error_In in H. contradiction.
      * now rewrite (IH i H).
Qed.

Lemma randint_range (seed n : nat) : randint seed 0 (n - 1) < n \/ n = 0.
Proof.
  destruct n as [| n]; [now right | left].
  unfold randint. rewrite Nat.add_0_l.
  replace (S n - 1 - 0 + 1) with (S n) by lia.
  apply Nat.mod_upper_bound. lia.
Qed.

(** On any non-empty list the index computed is in range. *)
Lemma next_index_range (seed : nat) (p : string) (l : list string) :
  l <> [] -> exists i, next_index seed p l = Some i /\ i < List.length l.
Proof.
  intros Hne. assert (Hlen : List.length l <> 0) by (destruct l; simpl; congruence).
  unfold next_index.
  destruct (negb (String.eqb p "") && str_in p l) eqn:E.
  - apply andb_true_iff in E. destruct E as [_ E].
    apply str_in_In, index_of_In in E. destruct E as [i Hi]. rewrite Hi.
    eexists. split; [reflexivity |]. now apply Nat.mod_upper_bound.
  - eexists. split; [reflexivity |].
    destruct (randint_range seed (List.length l)); [assumption | contradiction].
Qed.

Lemma next_index_found (seed : nat) (p : string) (l : list string) (i : nat) :
  p <> "" -> index_of p l = Some i ->
  next_index seed p l = Some ((i + 1) mod List.length l).
Proof.
  intros Hp Hi. unfold next_index.
  destruct (index_of_nth _ _ _ Hi) as [Hn _]. apply nth_error_In in Hn.
  apply str_in_In in Hn. rewrite Hn.
  apply String.eqb_neq in Hp. rewrite Hp. simpl. now rewrite Hi.
Qed.

Lemma get_gif_list_discovered (d : Disk) (m : GifManager) (x : string) :
  In x (fst (get_gif_list d m)) -> In x (discovered d m).
Proof.
  rewrite get_gif_list_fst. intros H. apply in_app_or in H.
  destruct H as [H | H]; apply filter_In in H; destruct H as [H1 H2].
  - now apply str_in_In.
  - assumption.
Qed.

Lemma switch_to_next_gif_fst (seed : nat) (w : Pet) :
  fst (switch_to_next_gif seed w)
  = match fst (get_gif_list (disk w) (mgr w)) with
    | [] => None
    | _ :: _ =>
        match next_index seed (movie w) (fst (get_gif_list (disk w) (mgr w))) with
        | Some i => nth_error (fst (get_gif_list (disk w) (mgr w))) i
        | None => None
        end
    end.
Proof.
  unfold switch_to_next_gif.
  destruct (get_gif_list (disk w) (mgr w)) as [gl m1]. simpl fst.
  destruct gl as [| g gl]; [reflexivity |].
  destruct (next_index seed (movie w) (g :: gl)) as [i |]; [| reflexivity].
  destruct (nth_error (g :: gl) i); reflexivity.
Qed.

(** C2, as amended.  On the ordered list of length N: when the playing path
    occurs in the list and its first occurrence is at index i,
    [switch_to_next_gif] selects element (i+1) mod N; in particular, on a
    list without duplicates, it does so for the index i of the playing path;
    and when the playing path is absent from the non-empty list, the element
    selected is a member of the list. *)
Theorem switch_to_next_gif_selects (seed : nat) (w : Pet) :
  let gif_list := fst (get_gif_list (disk w) (mgr w)) in
  (forall i, index_of (movie w) gif_list = Some i ->
     fst (switch_to_next_gif seed w)
     = nth_error gif_list ((i + 1) mod List.length gif_list))
  /\ (NoDup gif_list ->
      forall i, nth_error gif_list i = Some (movie w) ->
        fst (switch_to_next_gif seed w)
        = nth_error gif_list ((i + 1) mod List.length gif_list))
  /\ (gif_list <> [] -> ~ In (movie w) gif_list ->
      exists g, fst (switch_to_next_gif seed w) = Some g /\ In g gif_list).
Proof.
  intros gif_list.
  assert (Found : forall i, index_of (movie w) gif_list = Some i ->
            fst (switch_to_next_gif seed w)
            = nth_error gif_list ((i + 1) mod List.length gif_list)).
  { intros i Hi. rewrite switch_to_next_gif_fst. fold gif_list.
    destruct (index_of_nth _ _ _ Hi) as [Hn Hl].
    assert (Hp : movie w <> "").
    { apply (discovered_nonempty (disk w) (mgr w)).
      apply get_gif_list_discovered. fold gif_list.
      now apply nth_error_In in Hn. }
    rewrite (next_index_found seed _ _ _ Hp Hi).
    destruct gif_list; [simpl in Hl; lia | reflexivity]. }
  split; [exact Found |]. split.
  - intros Hnd i Hi. apply Found. now apply index_of_NoDup.
  - intros Hne Habs. rewrite switch_to_next_gif_fst. fold gif_list.
    destruct (next_index_range seed (movie w) gif_list Hne) as [i [Hi Hl]].
    rewrite Hi. destruct gif_list as [| g gl] eqn:E; [congruence |].
    rewrite <- E in *.
    destruct (nth_error gif_list i) as [x |] eqn:Hx.
    + exists x. split; [reflexivity | now apply nth_error_In in Hx].
    + apply nth_error_None in Hx. lia.
Qed.

Lemma switch_to_next_gif_selects_witness :
  fst (switch_to_next_gif 0 (mkPet two_gifs fresh_manager b_gif []))
  = Some a_gif
  /\ exists g,
       fst (switch_to_next_gif 7 (mkPet two_gifs fresh_manager "" [])) = Some g
       /\ In g (fst (get_gif_list two_gifs fresh_manager)).
Proof.
  split.
  - exact (proj1 (switch_to_next_gif_selects 0
                    (mkPet two_gifs fresh_manager b_gif [])) 1 eq_refl).
  - apply (proj2 (proj2 (switch_to_next_gif_selects 7
                           (mkPet two_gifs fresh_manager "" [])))).
    + discriminate.
    + simpl. intuition discriminate.
Defined.

(** C2, as stated, fails on a list that holds a path twice: [a.gif] is the
    element of index 1 of [a.gif; a.gif; b.gif], yet the element selected
    is [a.gif] again, not the element of index 2. *)
Lemma switch_to_next_gif_stuck :
  fst (get_gif_list (disk stuck_pet) (mgr stuck_pet)) = [a_gif; a_gif; b_gif]
  /\ nth_error (fst (get_gif_list (disk stuck_pet) (mgr stuck_pet))) 1
     = Some (movie stuck_pet)
  /\ fst (switch_to_next_gif 0 stuck_pet) = Some a_gif
  /\ fst (switch_to_next_gif 0 stuck_pet)
     <> nth_error (fst (get_gif_list (disk stuck_pet) (mgr stuck_pet)))
          ((1 + 1) mod 3).
Proof.
  repeat split; try reflexivity. vm_compute. discriminate.
Qed.

(** ** Deleting the last animation *)

(** C3.  Whenever the ordered list has at most one entry,
    [delete_current_gif] schedules no deletion, leaves the disk (files and
    [config.json]) and the playing animation as they are, and, once an
    animation is playing and the user has confirmed, answers with the
    [LastItemProtected] warning. *)
Theorem delete_current_gif_last_item (confirmed : bool) (w : Pet) :
  List.length (fst (get_gif_list (disk w) (mgr w))) <= 1 ->
  (forall g n, fst (delete_current_gif confirmed w) <> Scheduled g n)
  /\ disk (snd (delete_current_gif confirmed w)) = disk w
  /\ movie (snd (delete_current_gif confirmed w)) = movie w
  /\ (movie w <> "" -> confirmed = true ->
      fst (delete_current_gif confirmed w) = Shown LastItemProtected).
Proof.
  intros Hlen. unfold delete_current_gif.
  destruct (String.eqb (movie w) "") eqn:Hm.
  - simpl. repeat split; try discriminate.
    intros Hne. apply String.eqb_eq in Hm. contradiction.
  - destruct confirmed.
    + destruct (get_gif_list (disk w) (mgr w)) as [gl m1]. simpl in Hlen.
      rewrite length_map. apply Nat.leb_le in Hlen. rewrite Hlen. simpl.
      repeat split; discriminate.
    + simpl. repeat split; discriminate.
Qed.

Lemma delete_current_gif_last_item_witness :
  List.length (fst (get_gif_list one_gif fresh_manager)) <= 1
  /\ fst (delete_current_gif true (mkPet one_gif fresh_manager a_gif []))
     = Shown LastItemProtected
  /\ disk (snd (delete_current_gif true
                  (mkPet one_gif fresh_manager a_gif []))) = one_gif.
Proof.
  assert (H : List.length (fst (get_gif_list one_gif fresh_manager)) <= 1)
    by (vm_compute; lia).
  split; [exact H |].
  destruct (delete_current_gif_last_item true
              (mkPet one_gif fresh_manager a_gif []) H) as [_ [Hd [_ Hw]]].
  split; [apply Hw; [discriminate | reflexivity] | exact Hd].
Defined.

(** ** The default animation *)

(** C5, as amended.  While no default is remembered, [get_default_gif]
    returns the first element of the current ordered list and remembers it,
    and raises [FileNotFoundError] when that list is empty; once a default
    is remembered, it is returned as it is, whatever the current list. *)
Theorem get_default_gif_first (d : Disk) (m : GifManager) :
  (unset (default_gif m) = true ->
     match fst (get_gif_list d m) with
     | g :: _ =>
         fst (get_default_gif d m) = Returned g
         /\ default_gif (snd (get_default_gif d m)) = Some g
     | [] => fst (get_default_gif d m) = Raised FileNotFoundError
     end)
  /\ (forall g, default_gif m = Some g -> g <> "" ->
        get_default_gif d m = (Returned g, m)).
Proof.
  split.
  - intros Hu. unfold get_default_gif. rewrite Hu.
    destruct (get_gif_list d m) as [gl m1]. simpl.
    destruct gl as [| g gl]; simpl; [reflexivity | split; reflexivity].
  - intros g Hg Hne. unfold get_default_gif. rewrite Hg. simpl.
    apply String.eqb_neq in Hne. now rewrite Hne.
Qed.

Lemma get_default_gif_first_witness :
  fst (get_default_gif two_gifs fresh_manager) = Returned a_gif
  /\ get_default_gif two_gifs (with_default fresh_manager (Some b_gif))
     = (Returned b_gif, with_default fresh_manager (Some b_gif)).
Proof.
  split.
  - exact (proj1 (proj1 (get_default_gif_first two_gifs fresh_manager)
                    eq_refl)).
  - apply (proj2 (get_default_gif_first two_gifs
                    (with_default fresh_manager (Some b_gif))) b_gif eq_refl).
    discriminate.
Defined.

(** C5, as stated, fails: after the default was asked for once and the
    order was then set to [b.gif; a.gif], the ordered list starts with
    [b.gif] while [get_default_gif] still returns [a.gif]. *)
Lemma get_default_gif_stale :
  let m1 := snd (get_default_gif two_gifs fresh_manager) in
  let '(d2, m2) := set_custom_order two_gifs m1 [b_gif; a_gif] in
  fst (get_gif_list d2 m2) = [b_gif; a_gif]
  /\ fst (get_default_gif d2 m2) = Returned a_gif
  /\ fst (get_default_gif d2 m2) <> Returned b_gif.
Proof.
  vm_compute. repeat split. discriminate.
Qed.

(** ** Import *)

Lemma is_file_copy_target (d : Disk) (t : string) :
  is_file (copy_file d t) t = true.
Proof.
  unfold is_file, copy_file. simpl. rewrite existsb_app. simpl.
  unfold same_path at 2. rewrite String.eqb_refl. apply orb_true_r.
Qed.

Lemma is_file_copy_mono (d : Disk) (t p : string) :
  is_file d p = true -> is_file (copy_file d t) p = true.
Proof.
  unfold is_file, copy_file. simpl. rewrite existsb_app.
  intros ->. reflexivity.
Qed.

Lemma add_gif_of_file (d : Disk) (m : GifManager) (src : string) :
  is_file d src = true ->
  add_gif d m src
  = if path_exists d (join (user_gif_dir m) (basename src))
    then (Returned (join (user_gif_dir m) (basename src)), d)
    else (Returned (join (user_gif_dir m) (basename src)),
          copy_file d (join (user_gif_dir m) (basename src))).
Proof.
  intros Hsrc. unfold add_gif, path_exists at 1. rewrite Hsrc. simpl.
  destruct (path_exists d (join (user_gif_dir m) (basename src)));
    reflexivity.
Qed.

(** C6.  Importing the same existing source file twice: the second call
    copies nothing (the disk stays as the first call left it) and returns
    the path the first call returned, the file of that name in the user
    root. *)
Theorem add_gif_idempotent (d : Disk) (m : GifManager) (src : string) :
  is_file d src = true ->
  fst (add_gif d m src) = Returned (join (user_gif_dir m) (basename src))
  /\ add_gif (snd (add_gif d m src)) m src
     = (fst (add_gif d m src), snd (add_gif d m src)).
Proof.
  intros Hsrc.
  pose proof (add_gif_of_file d m src Hsrc) as E1.
  destruct (path_exists d (join (user_gif_dir m) (basename src))) eqn:Ht;
    rewrite E1; simpl.
  - split; [reflexivity |]. now rewrite E1.
  - split; [reflexivity |].
    rewrite add_gif_of_file by now apply is_file_copy_mono.
    unfold path_exists. now rewrite is_file_copy_target.
Qed.

Lemma add_gif_idempotent_witness :
  is_file with_download import_source = true
  /\ fst (add_gif with_download fresh_manager import_source)
     = Returned "/pet/resources/gifs/c.gif"
  /\ add_gif (snd (add_gif with_download fresh_manager import_source))
       fresh_manager import_source
     = (fst (add_gif with_download fresh_manager import_source),
        snd (add_gif with_download fresh_manager import_source)).
Proof.
  split; [reflexivity |].
  exact (add_gif_idempotent with_download fresh_manager import_source
           eq_refl).
Defined.

(** ** Removal *)

Lemma list_remove_app (x : string) (pre rest : list string) :
  ~ In x pre -> list_remove x (pre ++ x :: rest) = Some (pre ++ rest).
Proof.
  induction pre as [| y pre IH]; simpl; intros Hnotin.
  - now rewrite String.eqb_refl.
  - destruct (String.eqb y x) eqn:E.
    + apply String.eqb_eq in E. subst. exfalso. apply Hnotin. now left.
    + rewrite IH; [reflexivity | tauto].
Qed.

(** The loop of removals by value comes to a filter: each matching entry
    of the copy finds its own occurrence in the live list. *)
Lemma purge_loop_filter (cond : string -> bool) (copy pre : list string) :
  (forall y, In y pre -> cond y = false) ->
  purge_loop cond copy (Some (pre ++ copy))
  = Some (pre ++ filter (fun y => negb (cond y)) copy).
Proof.
  revert pre. induction copy as [| x rest IH]; intros pre Hpre; simpl.
  - reflexivity.
  - destruct (cond x) eqn:Hx; simpl.
    + rewrite list_remove_app; [now apply IH |].
      intros Hin. apply Hpre in Hin. congruence.
    + replace (pre ++ x :: rest) with ((pre ++ [x]) ++ rest)
        by (rewrite <- app_assoc; reflexivity).
      rewrite IH.
      * now rewrite <- app_assoc.
      * intros y Hy. apply in_app_or in Hy. destruct Hy as [Hy | [<- | []]];
          [now apply Hpre | assumption].
Qed.

Lemma purge_filter (cond : string -> bool) (order : list string) :
  purge cond order = Some (filter (fun y => negb (cond y)) order).
Proof. exact (purge_loop_filter cond order [] (fun _ H => match H with end)). Qed.

Lemma finish_removal_order (d : Disk) (m : GifManager) (t : string)
  (reset : bool) :
  custom_order (snd (finish_removal d m t reset)) = custom_order m.
Proof.
  unfold finish_removal. destruct (is_file (save_config d m) t); simpl;
    [destruct reset |]; reflexivity.
Qed.

Lemma finish_removal_config (d : Disk) (m : GifManager) (t : string)
  (reset : bool) :
  config_writable d = true ->
  config (snd (fst (finish_removal d m t reset))) = Some (config_of m).
Proof.
  intros Hw. unfold finish_removal, save_config. rewrite Hw.
  destruct (is_file (write_config d (config_of m)) t); reflexivity.
Qed.

Lemma existsb_filter_keep {A : Type} (f g : A -> bool) (l : list A) :
  (forall x, f x = true -> g x = true) ->
  existsb f (filter g l) = existsb f l.
Proof.
  intros H. induction l as [| x l IH]; simpl; [reflexivity |].
  destruct (g x) eqn:G; simpl; [now rewrite IH |].
  destruct (f x) eqn:F; [| assumption].
  apply H in F. congruence.
Qed.

Lemma is_file_os_remove (d : Disk) (p q : string) :
  same_path q p = false -> is_file (os_remove d p) q = is_file d q.
Proof.
  intros Hqp. unfold is_file, os_remove. simpl.
  apply existsb_filter_keep. intros f Hf.
  apply same_path_eq in Hf. apply negb_true_iff.
  destruct (same_path f p) eqn:E; [| reflexivity].
  apply same_path_eq in E.
  assert (same_path q p = true) by (apply same_path_eq; congruence).
  congruence.
Qed.

Lemma is_file_save_config (d : Disk) (m : GifManager) (q : string) :
  is_file (save_config d m) q = is_file d q.
Proof. unfold save_config. destruct (config_writable d); reflexivity. Qed.

Lemma finish_removal_other_file (d : Disk) (m : GifManager) (t q : string)
  (reset : bool) :
  same_path q t = false ->
  is_file (snd (fst (finish_removal d m t reset))) q = is_file d q.
Proof.
  intros Hq. unfold finish_removal.
  destruct (is_file (save_config d m) t); simpl.
  - now rewrite is_file_os_remove, is_file_save_config.
  - apply is_file_save_config.
Qed.

Lemma remove_gif_by_path (d : Disk) (m : GifManager) (p : string) :
  path_exists d (normalize p) = true ->
  remove_gif d m p
  = finish_removal d
      (with_order m
         (filter (fun q => negb (names_deleted (normalize p) q))
                 (custom_order m)))
      (normalize p) (opt_str_eqb (default_gif m) (normalize p)).
Proof.
  intros He. unfold remove_gif. rewrite He. now rewrite purge_filter.
Qed.

(** C10.  Deleting by a path that exists: the custom order, in memory and
    as persisted, loses every entry whose normalized path is the deleted
    one or whose file name is the deleted file's name; an entry of that
    name in another root is therefore dropped from the order although its
    own file stays on disk. *)
Theorem remove_gif_purges_same_name (d : Disk) (m : GifManager) (p : string) :
  path_exists d (normalize p) = true ->
  custom_order (snd (remove_gif d m p))
  = filter (fun q => negb (names_deleted (normalize p) q)) (custom_order m)
  /\ (config_writable d = true ->
      config (snd (fst (remove_gif d m p)))
      = Some (config_of (snd (remove_gif d m p))))
  /\ (forall q, basename q = basename (normalize p) ->
        ~ In q (custom_order (snd (remove_gif d m p))))
  /\ (forall q, same_path q p = false ->
        is_file (snd (fst (remove_gif d m p))) q = is_file d q).
Proof.
  intros He. rewrite (remove_gif_by_path d m p He).
  assert (Ho : forall t r o,
             custom_order (snd (finish_removal d (with_order m o) t r)) = o)
    by (intros; now rewrite finish_removal_order).
  split; [apply Ho |]. split; [| split].
  - intros Hw. rewrite (finish_removal_config _ _ _ _ Hw).
    unfold config_of. now rewrite Ho.
  - intros q Hq Hin. rewrite Ho in Hin. apply filter_In in Hin.
    destruct Hin as [_ Hin]. apply negb_true_iff in Hin.
    unfold names_deleted in Hin. apply orb_false_iff in Hin.
    destruct Hin as [_ Hin]. apply String.eqb_neq in Hin. contradiction.
  - intros q Hq. apply finish_removal_other_file.
    unfold same_path in *. now rewrite normalize_idem.
Qed.

Lemma remove_gif_purges_same_name_witness :
  path_exists two_roots (normalize a_gif) = true
  /\ custom_order (snd (remove_gif two_roots packaged_manager a_gif))
     = [b_gif]
  /\ is_file (snd (fst (remove_gif two_roots packaged_manager a_gif)))
       user_a_gif = true.
Proof.
  split; [reflexivity |].
  destruct (remove_gif_purges_same_name two_roots packaged_manager a_gif
              eq_refl) as [Ho [_ [_ Hf]]].
  split; [exact Ho | exact (Hf user_a_gif eq_refl)].
Defined.

(** After that removal the file of the same name in the user root is still
    listed, but behind the custom order instead of at its head. *)
Example remove_gif_other_root_demoted :
  fst (get_gif_list two_roots packaged_manager) = [user_a_gif; b_gif; a_gif]
  /\ (let '(_, d1, m1) := remove_gif two_roots packaged_manager a_gif in
      fst (get_gif_list d1 m1) = [b_gif; user_a_gif]).
Proof. split; reflexivity. Qed.

Lemma finish_removal_not_false (d : Disk) (m : GifManager) (t : string)
  (reset : bool) :
  fst (fst (finish_removal d m t reset)) <> Returned false.
Proof.
  unfold finish_removal. destruct (is_file (save_config d m) t); discriminate.
Qed.

Lemma remove_by_name_not_found (d : Disk) (m : GifManager) (name : string)
  (roots : list string) :
  fst (fst (remove_by_name d m name roots)) = Returned false ->
  remove_by_name d m name roots = (Returned false, d, m).
Proof.
  induction roots as [| r roots IH]; simpl; intros H; [reflexivity |].
  destruct (path_exists d (join r name)); [| now apply IH].
  rewrite purge_filter in H. now apply finish_removal_not_false in H.
Qed.

(** A removal that reports "not found" has changed nothing. *)
Lemma remove_gif_not_found (d : Disk) (m : GifManager) (p : string) :
  fst (fst (remove_gif d m p)) = Returned false ->
  remove_gif d m p = (Returned false, d, m).
Proof.
  unfold remove_gif. destruct (path_exists d (normalize p)).
  - rewrite purge_filter. intros H. now apply finish_removal_not_false in H.
  - apply remove_by_name_not_found.
Qed.

(** C7.  When [remove_gif] reports the file as not found, the delete flow
    shows the failure message and still passes the precomputed next
    animation to [load_animation], which plays it if it exists. *)
Theorem complete_deletion_not_found (p next : string) (w : Pet) :
  fst (fst (remove_gif (disk w) (mgr w) p)) = Returned false ->
  _complete_deletion p next w = (Some DeleteFailed, load_animation next w)
  /\ movie (snd (_complete_deletion p next w))
     = if path_exists (disk w) (normalize next) then normalize next
       else movie w.
Proof.
  intros H. apply remove_gif_not_found in H.
  unfold _complete_deletion. rewrite H. destruct w as [d m mv mn]. simpl.
  split; [reflexivity |]. unfold load_animation. simpl.
  destruct (path_exists d (normalize next)); reflexivity.
Qed.

Lemma complete_deletion_not_found_witness :
  fst (fst (remove_gif two_gifs fresh_manager "/gone/c.gif")) = Returned false
  /\ fst (_complete_deletion "/gone/c.gif" b_gif
            (mkPet two_gifs fresh_manager "" [])) = Some DeleteFailed
  /\ movie (snd (_complete_deletion "/gone/c.gif" b_gif
                   (mkPet two_gifs fresh_manager "" []))) = b_gif.
Proof.
  split; [reflexivity |].
  destruct (complete_deletion_not_found "/gone/c.gif" b_gif
              (mkPet two_gifs fresh_manager "" []) eq_refl) as [Hc Hm].
  split; [now rewrite Hc | exact Hm].
Defined.

(** ** The config file *)

Lemma as_strings_map (o : list string) : as_strings (map JStr o) = Some o.
Proof. induction o as [| s o IH]; simpl; [| rewrite IH]; reflexivity. Qed.

Lemma dict_get_skip (key k : string) (v : json) (kv1 kv2 : list (string * json)) :
  k <> key ->
  dict_get key (kv1 ++ (k, v) :: kv2) = dict_get key (kv1 ++ kv2).
Proof.
  intros Hk. induction kv1 as [| [k1 v1] kv1 IH]; simpl.
  - apply String.eqb_neq in Hk. rewrite Hk.
    destruct (dict_get key kv2); reflexivity.
  - now rewrite IH.
Qed.

Lemma mkdir_files (d : Disk) (p : string) : files (mkdir d p) = files d.
Proof. unfold mkdir. destruct (is_dir d p); reflexivity. Qed.

Lemma mkdir_config (d : Disk) (p : string) : config (mkdir d p) = config d.
Proof. unfold mkdir. destruct (is_dir d p); reflexivity. Qed.

Lemma GifManager_init_snd (gd ud : string) (d : Disk) :
  snd (GifManager_init gd ud d)
  = match config d with
    | None => Loaded (mkGifManager gd ud None [])
    | Some (Json (JObj kv)) =>
        match dict_get "gif_order" kv with
        | None => Loaded (mkGifManager gd ud None [])
        | Some v =>
            match as_order v with
            | Some o => Loaded (mkGifManager gd ud None o)
            | None => IllTyped v
            end
        end
    | Some _ => Loaded (mkGifManager gd ud None [])
    end.
Proof.
  unfold GifManager_init, load_config. simpl. rewrite !mkdir_config.
  destruct (config d) as [[raw | j] |]; reflexivity.
Qed.

(** C9.  Building the store never fails on the config: without a config
    file the order is empty; with a file that does not parse, or that is
    not a mapping, the order is empty; with a mapping without [gif_order]
    the order is empty; with a mapping whose [gif_order] is a sequence of
    strings the order is that sequence; and a key other than [gif_order],
    wherever it stands, does not change what [gif_order] is read as. *)
Theorem load_config_total (gd ud : string) (d : Disk) :
  (config d = None ->
     snd (GifManager_init gd ud d) = Loaded (mkGifManager gd ud None []))
  /\ (forall raw, config d = Some (Garbage raw) ->
        snd (GifManager_init gd ud d) = Loaded (mkGifManager gd ud None []))
  /\ (forall j, config d = Some (Json j) -> (forall kv, j <> JObj kv) ->
        snd (GifManager_init gd ud d) = Loaded (mkGifManager gd ud None []))
  /\ (forall kv, config d = Some (Json (JObj kv)) ->
        dict_get "gif_order" kv = None ->
        snd (GifManager_init gd ud d) = Loaded (mkGifManager gd ud None []))
  /\ (forall kv o, config d = Some (Json (JObj kv)) ->
        dict_get "gif_order" kv = Some (JArr (map JStr o)) ->
        snd (GifManager_init gd ud d) = Loaded (mkGifManager gd ud None o))
  /\ (forall kv1 kv2 k v, k <> "gif_order" ->
        dict_get "gif_order" (kv1 ++ (k, v) :: kv2)
        = dict_get "gif_order" (kv1 ++ kv2)).
Proof.
  rewrite GifManager_init_snd.
  split; [| split; [| split; [| split; [| split]]]].
  - now intros ->.
  - now intros raw ->.
  - intros j -> Hj. destruct j; try reflexivity. now destruct (Hj kv).
  - now intros kv -> ->.
  - intros kv o -> ->. simpl. now rewrite as_strings_map.
  - intros kv1 kv2 k v Hk. now apply dict_get_skip.
Qed.

Lemma load_config_total_witness :
  snd (GifManager_init gifs_root gifs_root two_gifs)
  = Loaded (mkGifManager gifs_root gifs_root None [])
  /\ snd (GifManager_init gifs_root gifs_root newer_config)
     = Loaded (mkGifManager gifs_root gifs_root None [b_gif; a_gif]).
Proof.
  split.
  - exact (proj1 (load_config_total gifs_root gifs_root two_gifs) eq_refl).
  - destruct (load_config_total gifs_root gifs_root newer_config)
      as [_ [_ [_ [_ [H _]]]]].
    exact (H _ [b_gif; a_gif] eq_refl eq_refl).
Defined.

(** The only config the typed store cannot hold. *)
Lemma load_config_ill_typed (d : Disk) (m : GifManager) (v : json) :
  load_config d m = IllTyped v <->
  exists kv, config d = Some (Json (JObj kv))
             /\ dict_get "gif_order" kv = Some v /\ as_order v = None.
Proof.
  unfold load_config. split.
  - destruct (config d) as [[raw | j] |]; try discriminate.
    destruct j; try discriminate.
    destruct (dict_get "gif_order" kv) as [v' |] eqn:E; [| discriminate].
    destruct (as_order v') eqn:A; [discriminate |].
    intros H. injection H as <-. now exists kv.
  - intros [kv [-> [-> ->]]]. reflexivity.
Qed.

Lemma discovered_ext (d1 d2 : Disk) (m1 m2 : GifManager) :
  files d1 = files d2 -> gif_dir m1 = gif_dir m2 ->
  user_gif_dir m1 = user_gif_dir m2 ->
  discovered d1 m1 = discovered d2 m2.
Proof.
  intros Hf Hg Hu. unfold discovered, glob_gifs. now rewrite Hf, Hg, Hu.
Qed.

(** C8.  Round trip of the order: once [save_config] has written it, a
    store built anew on a disk holding that config (whatever animation
    files are left by then) loads the same order, and its ordered list
    starts with that order filtered to the files still discovered. *)
Theorem order_round_trip (d d' : Disk) (m : GifManager) :
  config_writable d = true ->
  config d' = config (save_config d m) ->
  exists m',
    snd (GifManager_init (gif_dir m) (user_gif_dir m) d') = Loaded m'
    /\ custom_order m' = custom_order m
    /\ fst (get_gif_list (fst (GifManager_init (gif_dir m) (user_gif_dir m) d'))
              m')
       = surviving_order d' m ++ remaining_files d' m.
Proof.
  intros Hw Hc.
  exists (mkGifManager (gif_dir m) (user_gif_dir m) None (custom_order m)).
  split; [| split].
  - rewrite GifManager_init_snd, Hc. unfold save_config. rewrite Hw. simpl.
    now rewrite as_strings_map.
  - reflexivity.
  - rewrite get_gif_list_fst. unfold remaining_files, surviving_order.
    set (m' := mkGifManager (gif_dir m) (user_gif_dir m) None (custom_order m)).
    assert (E : discovered
                  (fst (GifManager_init (gif_dir m) (user_gif_dir m) d')) m'
                = discovered d' m).
    { apply discovered_ext; [| reflexivity | reflexivity].
      unfold GifManager_init. simpl. now rewrite !mkdir_files. }
    now rewrite E.
Qed.

Lemma order_round_trip_witness :
  exists m',
    snd (GifManager_init gifs_root gifs_root
           (save_config one_gif (with_order fresh_manager [b_gif; a_gif])))
    = Loaded m'
    /\ custom_order m' = [b_gif; a_gif]
    /\ fst (get_gif_list
              (fst (GifManager_init gifs_root gifs_root
                      (save_config one_gif
                         (with_order fresh_manager [b_gif; a_gif]))))
              m')
       = [a_gif].
Proof.
  exact (order_round_trip one_gif
           (save_config one_gif (with_order fresh_manager [b_gif; a_gif]))
           (with_order fresh_manager [b_gif; a_gif]) eq_refl eq_refl).
Defined.

(** ** Reordering *)

Lemma discovered_normalized (d : Disk) (m : GifManager) (x : string) :
  In x (discovered d m) -> normalize x = x.
Proof.
  assert (G : forall l, In x (map normalize l) -> normalize x = x).
  { intros l H. apply in_map_iff in H. destruct H as [f [<- _]].
    apply normalize_idem. }
  unfold discovered. intros H. apply in_app_or in H. destruct H as [H | H].
  - now apply G in H.
  - destruct (negb (same_path (user_gif_dir m) (gif_dir m)));
      [now apply G in H | contradiction].
Qed.

Lemma discovered_listed (d : Disk) (m : GifManager) (x : string) :
  In x (discovered d m) -> In x (fst (get_gif_list d m)).
Proof.
  intros H. rewrite get_gif_list_fst. apply in_or_app.
  destruct (str_in x (surviving_order d m)) eqn:E.
  - left. now apply str_in_In.
  - right. apply filter_In. split; [assumption | now rewrite E].
Qed.

Lemma map_nth_seq (l : list string) :
  map (fun i => nth i l "") (seq 0 (List.length l)) = l.
Proof.
  induction l as [| x l IH]; simpl; [reflexivity |].
  f_equal. rewrite <- seq_shift, map_map. exact IH.
Qed.

Lemma filter_all {A : Type} (p : A -> bool) (l : list A) :
  (forall x, In x l -> p x = true) -> filter p l = l.
Proof.
  intros H. apply forallb_filter_id, forallb_forall. exact H.
Qed.

Lemma filter_none {A : Type} (p : A -> bool) (l : list A) :
  (forall x, In x l -> p x = false) -> filter p l = [].
Proof.
  induction l as [| x l IH]; simpl; intros H; [reflexivity |].
  rewrite (H x (or_introl eq_refl)). apply IH. intros y Hy. apply H. now right.
Qed.

(** A store whose order is a rearrangement of the current ordered list
    lists exactly that rearrangement. *)
Lemma get_gif_list_of_permutation (d d' : Disk) (m : GifManager)
  (order : list string) :
  files d' = files d ->
  Permutation order (fst (get_gif_list d m)) ->
  fst (get_gif_list d' (with_order (snd (get_gif_list d m)) order)) = order.
Proof.
  intros Hf Hp. set (m2 := with_order (snd (get_gif_list d m)) order).
  assert (HD : discovered d' m2 = discovered d m).
  { apply discovered_ext; [assumption | |]; unfold m2, get_gif_list;
      destruct (custom_order m); reflexivity. }
  assert (Hin : forall x, In x order <-> In x (discovered d m)).
  { intros x. split; intros H.
    - apply get_gif_list_discovered. now apply (Permutation_in _ Hp).
    - apply discovered_listed in H.
      now apply (Permutation_in _ (Permutation_sym Hp)). }
  assert (Hn : map normalize order = order).
  { apply map_normalize_fixed, Forall_forall. intros x Hx.
    apply (discovered_normalized d m). now apply Hin. }
  assert (Hs : surviving_order d' m2 = order).
  { unfold surviving_order. rewrite HD. simpl custom_order. rewrite Hn.
    apply filter_all. intros x Hx. apply str_in_In. now apply Hin. }
  rewrite get_gif_list_fst. unfold remaining_files. rewrite Hs, HD.
  rewrite filter_none; [apply app_nil_r |].
  intros x Hx. apply negb_false_iff, str_in_In. now apply Hin.
Qed.

Lemma customize_gif_order_numbers (ns : list Z) (w : Pet) :
  fst (get_gif_list (disk w) (mgr w)) <> [] ->
  customize_gif_order (Numbers ns) w
  = let gif_list := fst (get_gif_list (disk w) (mgr w)) in
    let m1 := snd (get_gif_list (disk w) (mgr w)) in
    let w1 := mkPet (disk w) m1 (movie w) (menu w) in
    let indices := map (fun n => (n - 1)%Z) ns in
    if existsb (bad_index (List.length gif_list)) indices
    then (Some InvalidIndex, w1)
    else if negb (List.length indices =? List.length gif_list)%nat
    then (Some CountMismatch, w1)
    else
      let new_order :=
        map (fun idx => nth (Z.to_nat idx) gif_list "") indices in
      (Some OrderUpdated,
       update_animation_menu
         (mkPet (save_config (disk w) (with_order m1 new_order))
                (with_order m1 new_order) (movie w) (menu w))).
Proof.
  unfold customize_gif_order.
  destruct (get_gif_list (disk w) (mgr w)) as [gl m1]. simpl.
  destruct gl as [| g gl]; [congruence | reflexivity].
Qed.

(** The indices of a permutation of the positions are in range, as many
    as the animations, and pick a rearrangement of the list. *)
Lemma permutation_indices (indices : list Z) (l : list string) :
  Permutation indices (map Z.of_nat (seq 0 (List.length l))) ->
  existsb (bad_index (List.length l)) indices = false
  /\ List.length indices = List.length l
  /\ Permutation (map (fun idx => nth (Z.to_nat idx) l "") indices) l.
Proof.
  intros Hp. split; [| split].
  - destruct (existsb (bad_index (List.length l)) indices) eqn:E;
      [| reflexivity].
    apply existsb_exists in E. destruct E as [idx [Hin Hbad]].
    apply (Permutation_in _ Hp) in Hin. apply in_map_iff in Hin.
    destruct Hin as [i [<- Hi]]. apply in_seq in Hi.
    unfold bad_index in Hbad. apply orb_true_iff in Hbad.
    destruct Hbad as [H | H]; [apply Z.ltb_lt in H | apply Z.leb_le in H]; lia.
  - apply Permutation_length in Hp.
    now rewrite length_map, length_seq in Hp.
  - apply (Permutation_map (fun idx => nth (Z.to_nat idx) l "")) in Hp.
    rewrite map_map in Hp.
    rewrite (map_ext _ (fun i => nth i l "")) in Hp
      by (intros; now rewrite Nat2Z.id).
    now rewrite map_nth_seq in Hp.
Qed.

(** X19.  Numbers that are a permutation of the positions of a non-empty
    ordered list are accepted: the success message is shown, the new order
    is a rearrangement of the list, and the ordered list is from then on
    exactly the list entered. *)
Theorem customize_gif_order_permutation (ns : list Z) (w : Pet) :
  let gif_list := fst (get_gif_list (disk w) (mgr w)) in
  let new_order :=
    map (fun idx => nth (Z.to_nat idx) gif_list "")
        (map (fun n => (n - 1)%Z) ns) in
  gif_list <> [] ->
  Permutation (map (fun n => (n - 1)%Z) ns)
              (map Z.of_nat (seq 0 (List.length gif_list))) ->
  fst (customize_gif_order (Numbers ns) w) = Some OrderUpdated
  /\ Permutation new_order gif_list
  /\ fst (get_gif_list (disk (snd (customize_gif_order (Numbers ns) w)))
                       (mgr (snd (customize_gif_order (Numbers ns) w))))
     = new_order.
Proof.
  intros gif_list new_order Hne Hp.
  destruct (permutation_indices _ gif_list Hp) as [Hbad [Hlen Hperm]].
  rewrite (customize_gif_order_numbers ns w Hne). cbv zeta.
  fold gif_list. rewrite Hbad, Hlen, Nat.eqb_refl. simpl negb. cbv iota.
  fold new_order. split; [reflexivity |]. split; [exact Hperm |].
  unfold update_animation_menu. simpl disk. simpl mgr.
  set (d2 := save_config (disk w) _). set (m2 := with_order _ new_order).
  destruct (get_gif_list d2 m2) as [gl3 m3] eqn:E. simpl.
  replace m3 with (snd (get_gif_list d2 m2)) by now rewrite E.
  rewrite get_gif_list_again.
  apply get_gif_list_of_permutation; [| exact Hperm].
  unfold d2, save_config. destruct (config_writable (disk w)); reflexivity.
Qed.

(** X20.  Numbers of which one is out of range, or which are not as many
    as the animations, are refused with a warning and nothing is written
    to the disk. *)
Theorem customize_gif_order_refused (ns : list Z) (w : Pet) :
  let gif_list := fst (get_gif_list (disk w) (mgr w)) in
  gif_list <> [] ->
  existsb (bad_index (List.length gif_list)) (map (fun n => (n - 1)%Z) ns)
  = true
  \/ List.length ns <> List.length gif_list ->
  (fst (customize_gif_order (Numbers ns) w) = Some InvalidIndex
   \/ fst (customize_gif_order (Numbers ns) w) = Some CountMismatch)
  /\ disk (snd (customize_gif_order (Numbers ns) w)) = disk w.
Proof.
  intros gif_list Hne H.
  rewrite (customize_gif_order_numbers ns w Hne). cbv zeta. fold gif_list.
  destruct (existsb _ _) eqn:E; [simpl; tauto |].
  destruct H as [H | H]; [discriminate |].
  rewrite length_map. apply Nat.eqb_neq in H. rewrite H. simpl. tauto.
Qed.

(** C4 fails on the code: the order dialog answered 1,1 on two animations
    passes both checks (every index is in range, and there are as many
    indices as animations), so the order that names [a.gif] twice and
    [b.gif] not at all is stored and persisted, and the ordered list is
    then not the list that was entered. *)
Theorem customize_gif_order_accepts_duplicate :
  let w := mkPet two_gifs fresh_manager a_gif [] in
  let r := customize_gif_order (Numbers [1; 1]%Z) w in
  fst (get_gif_list (disk w) (mgr w)) = [a_gif; b_gif]
  /\ fst r = Some OrderUpdated
  /\ custom_order (mgr (snd r)) = [a_gif; a_gif]
  /\ config (disk (snd r))
     = Some (Json (JObj [("gif_order", JArr [JStr a_gif; JStr a_gif])]))
  /\ fst (get_gif_list (disk (snd r)) (mgr (snd r)))
     = [a_gif; a_gif; b_gif].
Proof. repeat split. Qed.

(** * Further properties of the program *)

(** ** What is listed and what can be played *)

Lemma same_path_trans (a b c : string) :
  same_path a b = true -> same_path b c = true -> same_path a c = true.
Proof. rewrite !same_path_eq. congruence. Qed.

Lemma same_path_sym (a b : string) : same_path a b = same_path b a.
Proof. unfold same_path. apply String.eqb_sym. Qed.

Lemma glob_gifs_In (d : Disk) (dir f : string) :
  In f (glob_gifs d dir) <->
  In f (files d) /\ same_path (dirname f) dir = true
  /\ is_gif (basename f) = true.
Proof.
  unfold glob_gifs. rewrite filter_In, andb_true_iff. tauto.
Qed.

Lemma discovered_In (d : Disk) (m : GifManager) (x : string) :
  In x (discovered d m) <->
  exists f, In f (files d) /\ x = normalize f
            /\ is_gif (basename f) = true
            /\ (same_path (dirname f) (gif_dir m) = true
                \/ same_path (dirname f) (user_gif_dir m) = true).
Proof.
  unfold discovered. rewrite in_app_iff. split.
  - intros [H | H].
    + apply in_map_iff in H. destruct H as [f [<- Hf]].
      apply glob_gifs_In in Hf. exists f. tauto.
    + destruct (same_path (user_gif_dir m) (gif_dir m)); simpl in H;
        [contradiction |].
      apply in_map_iff in H. destruct H as [f [<- Hf]].
      apply glob_gifs_In in Hf. exists f. tauto.
  - intros [f [Hf [-> [Hg [Hd | Hd]]]]].
    + left. apply in_map. apply glob_gifs_In. tauto.
    + destruct (same_path (user_gif_dir m) (gif_dir m)) eqn:E; simpl.
      * left. apply in_map. apply glob_gifs_In.
        split; [assumption |]. split; [| assumption].
        now apply (same_path_trans _ (user_gif_dir m)).
      * right. apply in_map. apply glob_gifs_In. tauto.
Qed.

(** Without directories named [*.gif] in the root, [glob_gifs] is the
    filter over every entry of the disk, files and directories alike. *)
Lemma glob_gifs_agrees (d : Disk) (dir : string) :
  gif_directories d dir = [] ->
  filter (fun p => same_path (dirname p) dir && is_gif (basename p))
         (files d ++ map rstrip_sep (dirs d))
  = glob_gifs d dir.
Proof.
  unfold gif_directories, glob_gifs. intros H. rewrite filter_app.
  assert (E : filter (fun p => same_path (dirname p) dir
                               && is_gif (basename p))
                     (map rstrip_sep (dirs d)) = []).
  { induction (dirs d) as [| x xs IH]; simpl in *; [reflexivity |].
    destruct (same_path (dirname (rstrip_sep x)) dir
              && is_gif (basename (rstrip_sep x))); [discriminate |].
    now apply IH. }
  rewrite E. apply app_nil_r.
Qed.



Lemma discovered_is_file (d : Disk) (m : GifManager) (g : string) :
  In g (discovered d m) -> is_file d g = true.
Proof.
  intros H. apply discovered_In in H. destruct H as [f [Hf [-> _]]].
  unfold is_file. apply existsb_exists. exists f. split; [assumption |].
  apply same_path_eq. now rewrite normalize_idem.
Qed.

Lemma listed_is_file (d : Disk) (m : GifManager) (g : string) :
  In g (fst (get_gif_list d m)) -> is_file d g = true /\ normalize g = g.
Proof.
  intros H. apply get_gif_list_discovered in H. split.
  - now apply (discovered_is_file d m).
  - now apply (discovered_normalized d m).
Qed.

Lemma load_animation_file (g : string) (w : Pet) :
  is_file (disk w) g = true -> normalize g = g ->
  load_animation g w = mkPet (disk w) (mgr w) g (menu w).
Proof.
  intros Hf Hn. unfold load_animation, path_exists. now rewrite Hn, Hf.
Qed.

(** X2.  [load_animation] plays every entry of the ordered list it is
    given (the entry becomes the file name of the movie), and leaves the
    window as it is when the path does not exist. *)
Theorem load_animation_plays_listed (g : string) (w : Pet) :
  (In g (fst (get_gif_list (disk w) (mgr w))) ->
   movie (load_animation g w) = g)
  /\ (path_exists (disk w) (normalize g) = false -> load_animation g w = w).
Proof.
  split.
  - intros H. apply listed_is_file in H. destruct H as [Hf Hn].
    now rewrite load_animation_file.
  - intros H. unfold load_animation. now rewrite H.
Qed.

Lemma load_animation_plays_listed_witness :
  movie (load_animation b_gif playing_a) = b_gif
  /\ load_animation "/gone/c.gif" playing_a = playing_a.
Proof.
  split.
  - apply (proj1 (load_animation_plays_listed b_gif playing_a)).
    simpl. tauto.
  - exact (proj2 (load_animation_plays_listed "/gone/c.gif" playing_a)
             eq_refl).
Defined.

Lemma switch_to_next_gif_snd (seed : nat) (w : Pet) (g : string) :
  fst (switch_to_next_gif seed w) = Some g ->
  snd (switch_to_next_gif seed w)
  = load_animation g
      (mkPet (disk w) (snd (get_gif_list (disk w) (mgr w))) (movie w)
             (menu w)).
Proof.
  unfold switch_to_next_gif.
  destruct (get_gif_list (disk w) (mgr w)) as [gl m1]. simpl snd.
  destruct gl as [| g0 gl]; [discriminate |].
  destruct (next_index seed (movie w) (g0 :: gl)) as [i |]; [| discriminate].
  destruct (nth_error (g0 :: gl) i); [| discriminate].
  simpl. now intros [= ->].
Qed.

Lemma switch_to_next_gif_some (seed : nat) (w : Pet) :
  fst (get_gif_list (disk w) (mgr w)) <> [] ->
  exists g, fst (switch_to_next_gif seed w) = Some g
            /\ In g (fst (get_gif_list (disk w) (mgr w))).
Proof.
  intros Hne. rewrite switch_to_next_gif_fst.
  destruct (next_index_range seed (movie w) _ Hne) as [i [Hi Hl]].
  rewrite Hi.
  destruct (fst (get_gif_list (disk w) (mgr w))) as [| g0 gl] eqn:E;
    [congruence |].
  destruct (nth_error (g0 :: gl) i) as [x |] eqn:Hx.
  - exists x. split; [reflexivity | now apply nth_error_In in Hx].
  - apply nth_error_None in Hx. lia.
Qed.

Lemma switch_to_next_gif_state (seed : nat) (w : Pet) (g : string) :
  fst (switch_to_next_gif seed w) = Some g ->
  In g (fst (get_gif_list (disk w) (mgr w))) ->
  snd (switch_to_next_gif seed w)
  = mkPet (disk w) (snd (get_gif_list (disk w) (mgr w))) g (menu w).
Proof.
  intros Hs Hin. rewrite (switch_to_next_gif_snd seed w g Hs).
  apply listed_is_file in Hin. destruct Hin as [Hf Hn].
  now rewrite load_animation_file.
Qed.

(** X3.  A timeout of the auto-switch timer on a non-empty ordered list
    always ends with an entry of that list playing, and never touches the
    disk; on an empty list it selects nothing and the movie stays as it
    was. *)
Theorem switch_to_next_gif_plays (seed : nat) (w : Pet) :
  disk (snd (switch_to_next_gif seed w)) = disk w
  /\ (fst (get_gif_list (disk w) (mgr w)) <> [] ->
      exists g, fst (switch_to_next_gif seed w) = Some g
                /\ In g (fst (get_gif_list (disk w) (mgr w)))
                /\ movie (snd (switch_to_next_gif seed w)) = g)
  /\ (fst (get_gif_list (disk w) (mgr w)) = [] ->
      fst (switch_to_next_gif seed w) = None
      /\ movie (snd (switch_to_next_gif seed w)) = movie w).
Proof.
  split; [| split].
  - destruct (fst (get_gif_list (disk w) (mgr w))) as [| g0 gl] eqn:E.
    + unfold switch_to_next_gif.
      destruct (get_gif_list (disk w) (mgr w)) as [gl m1]. simpl in E.
      now subst gl.
    + destruct (switch_to_next_gif_some seed w) as [g [Hs Hin]];
        [congruence |].
      now rewrite (switch_to_next_gif_state seed w g Hs Hin).
  - intros Hne. destruct (switch_to_next_gif_some seed w Hne) as [g [Hs Hin]].
    exists g. split; [assumption |]. split; [assumption |].
    now rewrite (switch_to_next_gif_state seed w g Hs Hin).
  - intros E. unfold switch_to_next_gif.
    destruct (get_gif_list (disk w) (mgr w)) as [gl m1]. simpl in E.
    now subst gl.
Qed.

Lemma switch_to_next_gif_plays_witness :
  exists g, fst (switch_to_next_gif 3 playing_a) = Some g
            /\ In g (fst (get_gif_list two_gifs fresh_manager))
            /\ movie (snd (switch_to_next_gif 3 playing_a)) = g.
Proof.
  apply (proj1 (proj2 (switch_to_next_gif_plays 3 playing_a))).
  discriminate.
Defined.

(** ** Cycling through the list *)

Lemma switch_to_next_gif_found (seed : nat) (w : Pet) (i : nat) :
  index_of (movie w) (fst (get_gif_list (disk w) (mgr w))) = Some i ->
  fst (switch_to_next_gif seed w)
  = nth_error (fst (get_gif_list (disk w) (mgr w)))
      ((i + 1) mod List.length (fst (get_gif_list (disk w) (mgr w)))).
Proof.
  intros Hi. rewrite switch_to_next_gif_fst.
  destruct (index_of_nth _ _ _ Hi) as [Hn Hl].
  assert (Hp : movie w <> "").
  { apply (discovered_nonempty (disk w) (mgr w)), get_gif_list_discovered.
    now apply nth_error_In in Hn. }
  rewrite (next_index_found seed _ _ _ Hp Hi).
  destruct (fst (get_gif_list (disk w) (mgr w)));
    [simpl in Hl; lia | reflexivity].
Qed.

Lemma timeouts_position (seeds : list nat) :
  forall (w : Pet) (i : nat),
    NoDup (fst (get_gif_list (disk w) (mgr w))) ->
    nth_error (fst (get_gif_list (disk w) (mgr w))) i = Some (movie w) ->
    nth_error (fst (get_gif_list (disk w) (mgr w)))
      ((i + List.length seeds)
       mod List.length (fst (get_gif_list (disk w) (mgr w))))
    = Some (movie (timeouts seeds w)).
Proof.
  induction seeds as [| seed rest IH]; intros w i Hnd Hi.
  - simpl. rewrite Nat.add_0_r, Nat.mod_small; [assumption |].
    apply nth_error_Some. congruence.
  - set (gl := fst (get_gif_list (disk w) (mgr w))) in *.
    assert (Hlt : i < List.length gl) by (apply nth_error_Some; congruence).
    assert (Hn : List.length gl <> 0) by lia.
    pose proof (switch_to_next_gif_found seed w i
                  (index_of_NoDup _ _ _ Hnd Hi)) as Hs. fold gl in Hs.
    destruct (nth_error gl ((i + 1) mod List.length gl)) as [g |] eqn:Hg.
    2: { apply nth_error_None in Hg.
         pose proof (Nat.mod_upper_bound (i + 1) _ Hn). lia. }
    assert (Hin : In g gl) by (now apply nth_error_In in Hg).
    pose proof (switch_to_next_gif_state seed w g Hs Hin) as Hw.
    simpl timeouts. rewrite Hw.
    set (w' := mkPet (disk w) (snd (get_gif_list (disk w) (mgr w))) g (menu w)).
    assert (Hgl : fst (get_gif_list (disk w') (mgr w')) = gl)
      by apply get_gif_list_again.
    specialize (IH w' ((i + 1) mod List.length gl)).
    rewrite Hgl in IH. specialize (IH Hnd Hg). rewrite <- IH.
    f_equal. simpl List.length.
    rewrite Nat.Div0.add_mod_idemp_l. f_equal. lia.
Qed.

(** X4.  On an ordered list without duplicates, starting from the entry of
    index i, k timeouts of the auto-switch timer leave the entry of index
    (i+k) mod N playing: the timer visits the entries in list order, wraps
    around, and after N timeouts the starting entry plays again. *)
Theorem timeouts_round_robin (seeds : list nat) (w : Pet) (i : nat) :
  NoDup (fst (get_gif_list (disk w) (mgr w))) ->
  nth_error (fst (get_gif_list (disk w) (mgr w))) i = Some (movie w) ->
  nth_error (fst (get_gif_list (disk w) (mgr w)))
    ((i + List.length seeds)
     mod List.length (fst (get_gif_list (disk w) (mgr w))))
  = Some (movie (timeouts seeds w))
  /\ (List.length seeds = List.length (fst (get_gif_list (disk w) (mgr w))) ->
      movie (timeouts seeds w) = movie w).
Proof.
  intros Hnd Hi. pose proof (timeouts_position seeds w i Hnd Hi) as H.
  split; [exact H |]. intros Hlen. rewrite Hlen in H.
  assert (Hlt : i < List.length (fst (get_gif_list (disk w) (mgr w))))
    by (apply nth_error_Some; congruence).
  replace (i + List.length (fst (get_gif_list (disk w) (mgr w))))
    with (i + 1 * List.length (fst (get_gif_list (disk w) (mgr w))))
    in H by lia.
  rewrite Nat.Div0.mod_add, Nat.mod_small in H by assumption.
  congruence.
Qed.

Lemma timeouts_round_robin_witness :
  NoDup (fst (get_gif_list (disk playing_a) (mgr playing_a)))
  /\ nth_error (fst (get_gif_list (disk playing_a) (mgr playing_a))) 1
     = Some (movie (timeouts [4; 9; 1] playing_a))
  /\ movie (timeouts [4; 9] playing_a) = a_gif.
Proof.
  assert (N : NoDup (fst (get_gif_list (disk playing_a) (mgr playing_a)))).
  { vm_compute. repeat constructor; simpl; intuition discriminate. }
  split; [exact N |]. split.
  - exact (proj1 (timeouts_round_robin [4; 9; 1] playing_a 0 N eq_refl)).
  - exact (proj2 (timeouts_round_robin [4; 9] playing_a 0 N eq_refl) eq_refl).
Defined.

(** ** Building the store *)

Lemma is_dir_mkdir (d : Disk) (p : string) : is_dir (mkdir d p) p = true.
Proof.
  unfold mkdir. destruct (is_dir d p) eqn:E; [assumption |].
  unfold is_dir. simpl. rewrite existsb_app. simpl.
  unfold same_path. rewrite String.eqb_refl. apply orb_true_r.
Qed.

Lemma is_dir_mkdir_mono (d : Disk) (p q : string) :
  is_dir d q = true -> is_dir (mkdir d p) q = true.
Proof.
  intros H. unfold mkdir. destruct (is_dir d p); [assumption |].
  unfold is_dir in *. simpl. rewrite existsb_app, H. reflexivity.
Qed.

Lemma mkdir_present (d : Disk) (p : string) :
  is_dir d p = true -> mkdir d p = d.
Proof. intros H. unfold mkdir. now rewrite H. Qed.

(** Where both roots can be created, the two [mkdir] calls of
    [GifManager.__init__] go through and do what [mkdir] says. *)
Lemma mkdir_agrees (d : Disk) (gd ud : string) :
  roots_creatable d gd ud ->
  Path_mkdir d gd = Returned (mkdir d gd)
  /\ Path_mkdir (mkdir d gd) ud = Returned (mkdir (mkdir d gd) ud).
Proof.
  intros [Hg Hu]. unfold Path_mkdir. rewrite Hg.
  split; [reflexivity |].
  unfold blocks_mkdir in *. rewrite mkdir_files. now rewrite Hu.
Qed.

(** X5.  On a disk where no regular file stands in the way of the two
    roots, building a [GifManager] leaves both roots in place as
    directories and keeps every file, every directory and the config;
    nothing then stands in the way on the resulting disk either, and
    building the manager again there changes nothing. *)
Theorem GifManager_init_creates_roots (gd ud : string) (d : Disk) :
  roots_creatable d gd ud ->
  roots_creatable (fst (GifManager_init gd ud d)) gd ud
  /\ is_dir (fst (GifManager_init gd ud d)) gd = true
  /\ is_dir (fst (GifManager_init gd ud d)) ud = true
  /\ files (fst (GifManager_init gd ud d)) = files d
  /\ config (fst (GifManager_init gd ud d)) = config d
  /\ (forall p, is_dir d p = true ->
        is_dir (fst (GifManager_init gd ud d)) p = true)
  /\ fst (GifManager_init gd ud (fst (GifManager_init gd ud d)))
     = fst (GifManager_init gd ud d).
Proof.
  intros Hfree. unfold GifManager_init. simpl.
  assert (Hg : is_dir (mkdir (mkdir d gd) ud) gd = true)
    by apply is_dir_mkdir_mono, is_dir_mkdir.
  assert (Hu : is_dir (mkdir (mkdir d gd) ud) ud = true)
    by apply is_dir_mkdir.
  split.
  { unfold roots_creatable, blocks_mkdir in *. now rewrite !mkdir_files. }
  split; [exact Hg |]. split; [exact Hu |].
  split; [now rewrite !mkdir_files |].
  split; [now rewrite !mkdir_config |]. split.
  - intros p Hp. now apply is_dir_mkdir_mono, is_dir_mkdir_mono.
  - rewrite (mkdir_present _ gd Hg). now rewrite (mkdir_present _ ud Hu).
Qed.

Lemma GifManager_init_creates_roots_witness :
  roots_creatable no_gifs gifs_root user_root
  /\ is_dir (fst (GifManager_init gifs_root user_root no_gifs)) gifs_root
     = true
  /\ is_dir (fst (GifManager_init gifs_root user_root no_gifs)) user_root
     = true.
Proof.
  assert (F : roots_creatable no_gifs gifs_root user_root)
    by (split; reflexivity).
  destruct (GifManager_init_creates_roots gifs_root user_root no_gifs F)
    as [_ [Hg [Hu _]]].
  split; [exact F |]. split; [exact Hg | exact Hu].
Defined.

(** ** Joining and splitting paths *)

Lemma has_sep_basename (s : string) : has_sep (basename s) = false.
Proof.
  induction s as [| c r IH]; simpl; [reflexivity |].
  destruct (is_sep c || has_sep r) eqn:E; [assumption | exact E].
Qed.

Lemma basename_plain (s : string) : has_sep s = false -> basename s = s.
Proof. destruct s as [| c r]; simpl; [reflexivity | now intros ->]. Qed.

Lemma normalize_plain (s : string) : has_sep s = false -> normalize s = s.
Proof.
  induction s as [| c r IH]; simpl; [reflexivity |].
  intros H. apply orb_false_iff in H. destruct H as [Hc Hr].
  rewrite (IH Hr). unfold is_sep in Hc. apply orb_false_iff in Hc.
  destruct Hc as [_ Hb]. now rewrite Hb.
Qed.

Lemma basename_normalize (s : string) : basename (normalize s) = basename s.
Proof.
  induction s as [| c r IH]; simpl; [reflexivity |].
  rewrite is_sep_normalized, has_sep_normalize.
  destruct (is_sep c || has_sep r) eqn:E; [assumption |].
  apply orb_false_iff in E. destruct E as [Hc Hr].
  rewrite (normalize_plain r Hr). unfold is_sep in Hc.
  apply orb_false_iff in Hc. destruct Hc as [_ Hb]. now rewrite Hb.
Qed.

Lemma has_sep_after_slash (dir name : string) :
  has_sep (String.append dir (String slash name)) = true.
Proof.
  induction dir as [| c r IH]; simpl; [reflexivity |].
  rewrite IH. apply orb_true_r.
Qed.

Lemma dirname_after_slash (dir name : string) :
  has_sep name = false ->
  dirname (String.append dir (String slash name)) = dir.
Proof.
  intros Hn. induction dir as [| c r IH]; simpl.
  - now rewrite Hn.
  - now rewrite has_sep_after_slash, IH.
Qed.

Lemma basename_after_slash (dir name : string) :
  has_sep name = false ->
  basename (String.append dir (String slash name)) = name.
Proof.
  intros Hn. induction dir as [| c r IH]; simpl.
  - now apply basename_plain.
  - now rewrite has_sep_after_slash, orb_true_r.
Qed.

Lemma is_gif_nonempty (name : string) : is_gif name = true -> name <> "".
Proof. intros H E. subst. discriminate. Qed.

(** [dirname] and [basename] undo [join] on a plain file name. *)
Lemma join_split (dir name : string) :
  name <> "" -> has_sep name = false ->
  dirname (join dir name) = dir /\ basename (join dir name) = name.
Proof.
  intros Hne Hs. unfold join. apply String.eqb_neq in Hne. rewrite Hne.
  split; [now apply dirname_after_slash | now apply basename_after_slash].
Qed.

(** A [*.gif] file that lies in one of the roots is discovered. *)
Lemma file_in_root_discovered (d : Disk) (m : GifManager) (p : string) :
  is_file d p = true -> is_gif (basename p) = true ->
  same_path (dirname p) (gif_dir m) = true
  \/ same_path (dirname p) (user_gif_dir m) = true ->
  In (normalize p) (discovered d m).
Proof.
  intros Hf Hg Hd. unfold is_file in Hf. apply existsb_exists in Hf.
  destruct Hf as [f [Hin Hs]]. apply same_path_eq in Hs.
  apply discovered_In. exists f. split; [assumption |].
  split; [now symmetry |].
  assert (Hb : basename f = basename p)
    by (rewrite <- (basename_normalize f), Hs; apply basename_normalize).
  assert (Hdn : normalize (dirname f) = normalize (dirname p))
    by (now rewrite <- !dirname_normalize, Hs).
  split; [now rewrite Hb |].
  unfold same_path in *. rewrite Hdn. exact Hd.
Qed.

(** ** Start-up *)

Lemma get_gif_list_ext (d1 d2 : Disk) (m : GifManager) :
  files d1 = files d2 -> get_gif_list d1 m = get_gif_list d2 m.
Proof.
  intros Hf. unfold get_gif_list.
  now rewrite (discovered_ext d1 d2 m m Hf eq_refl eq_refl).
Qed.

Lemma get_gif_list_default (d : Disk) (m : GifManager) :
  default_gif (snd (get_gif_list d m)) = default_gif m.
Proof. unfold get_gif_list. destruct (custom_order m); reflexivity. Qed.

Lemma GifManager_init_loaded (gd ud : string) (d : Disk) (m0 : GifManager) :
  snd (GifManager_init gd ud d) = Loaded m0 ->
  gif_dir m0 = gd /\ user_gif_dir m0 = ud /\ default_gif m0 = None.
Proof.
  rewrite GifManager_init_snd.
  destruct (config d) as [[raw | j] |]; try (intros [= <-]; now simpl).
  destruct j; try (intros [= <-]; now simpl).
  destruct (dict_get "gif_order" kv) as [v |]; [| intros [= <-]; now simpl].
  destruct (as_order v); [intros [= <-]; now simpl | discriminate].
Qed.


Lemma get_default_gif_unset (d : Disk) (m : GifManager) :
  unset (default_gif m) = true ->
  get_default_gif d m
  = match fst (get_gif_list d m) with
    | g :: _ =>
        (Returned g, with_default (snd (get_gif_list d m)) (Some g))
    | [] => (Raised FileNotFoundError, snd (get_gif_list d m))
    end.
Proof.
  intros Hu. unfold get_default_gif. rewrite Hu.
  destruct (get_gif_list d m) as [gl m1]. simpl.
  destruct gl; reflexivity.
Qed.

(** What [PetWindow.__init__] builds on a disk whose config loads. *)
Lemma PetWindow_init_loaded (gd ud : string) (d : Disk) (m0 : GifManager) :
  snd (GifManager_init gd ud d) = Loaded m0 ->
  exists w,
    PetWindow_init gd ud d = Some w
    /\ files (disk w) = files d
    /\ menu w = fst (get_gif_list d m0)
    /\ movie w = hd "" (menu w)
    /\ default_gif (mgr w) = hd_error (menu w).
Proof.
  intros Hl. destruct (GifManager_init_loaded gd ud d m0 Hl) as [_ [_ Hdef]].
  unfold PetWindow_init.
  destruct (GifManager_init gd ud d) as [d1 l] eqn:E. simpl in Hl. subst l.
  assert (Hf : files d1 = files d).
  { replace d1 with (fst (GifManager_init gd ud d)) by now rewrite E.
    unfold GifManager_init. simpl. now rewrite !mkdir_files. }
  rewrite <- (get_gif_list_ext d1 d m0 Hf).
  unfold update_animation_menu. simpl disk. simpl mgr.
  destruct (get_gif_list d1 m0) as [gl m1] eqn:G. simpl.
  assert (Hm1 : m1 = snd (get_gif_list d1 m0)) by now rewrite G.
  assert (Hgl : gl = fst (get_gif_list d1 m0)) by now rewrite G.
  rewrite get_default_gif_unset
    by (rewrite Hm1, get_gif_list_default, Hdef; reflexivity).
  rewrite Hm1, get_gif_list_again, <- Hgl, <- Hm1.
  destruct gl as [| g gl].
  - eexists. split; [reflexivity |]. simpl.
    repeat split; try assumption.
    now rewrite Hm1, !get_gif_list_default.
  - assert (Hin : In g (fst (get_gif_list d1 m0)))
      by (rewrite <- Hgl; now left).
    apply listed_is_file in Hin. destruct Hin as [Hfile Hn].
    rewrite load_animation_file by assumption.
    eexists. split; [reflexivity |]. simpl. repeat split. assumption.
Qed.

(** X6.  A window built on a disk whose config loads shows the ordered
    list as its menu and plays the first entry, which becomes the
    remembered default; without any animation it comes up with nothing
    playing instead of failing. *)
Theorem PetWindow_init_shows_first (gd ud : string) (d : Disk)
  (m0 : GifManager) :
  snd (GifManager_init gd ud d) = Loaded m0 ->
  exists w,
    PetWindow_init gd ud d = Some w
    /\ files (disk w) = files d
    /\ menu w = fst (get_gif_list d m0)
    /\ movie w = hd "" (menu w)
    /\ default_gif (mgr w) = hd_error (menu w).
Proof. apply PetWindow_init_loaded. Qed.

Lemma PetWindow_init_shows_first_witness :
  exists w,
    PetWindow_init gifs_root gifs_root newer_config = Some w
    /\ files (disk w) = [a_gif; b_gif]
    /\ menu w = [b_gif; a_gif]
    /\ movie w = hd "" (menu w)
    /\ default_gif (mgr w) = hd_error (menu w).
Proof.
  exact (PetWindow_init_shows_first gifs_root gifs_root newer_config
           (mkGifManager gifs_root gifs_root None [b_gif; a_gif]) eq_refl).
Defined.

Lemma GifManager_init_creates_roots_files (gd ud : string) (d : Disk) :
  files (fst (GifManager_init gd ud d)) = files d
  /\ config (fst (GifManager_init gd ud d)) = config d.
Proof.
  unfold GifManager_init. simpl. now rewrite !mkdir_files, !mkdir_config.
Qed.

Lemma default_dog_split (ud : string) :
  dirname (join ud "default_dog.gif") = ud
  /\ basename (join ud "default_dog.gif") = "default_dog.gif".
Proof. apply join_split; [discriminate | reflexivity]. Qed.



(** The disk [ensure_gif_exists] leaves behind. *)
Lemma ensure_gif_exists_loaded (gd ud : string) (saved : bool) (d : Disk)
  (m0 : GifManager) :
  snd (GifManager_init gd ud d) = Loaded m0 ->
  ensure_gif_exists gd ud saved d
  = Some (match fst (get_gif_list d m0) with
          | [] =>
              if saved
              then save_image (fst (GifManager_init gd ud d))
                     (join ud "default_dog.gif")
              else fst (GifManager_init gd ud d)
          | _ :: _ => fst (GifManager_init gd ud d)
          end).
Proof.
  intros Hl. unfold ensure_gif_exists.
  assert (Hf : files (fst (GifManager_init gd ud d)) = files d)
    by (unfold GifManager_init; simpl; now rewrite !mkdir_files).
  destruct (GifManager_init gd ud d) as [d1 l]. simpl in *. subst l.
  rewrite (get_gif_list_ext d1 d m0 Hf).
  destruct (fst (get_gif_list d m0)); [destruct saved |]; reflexivity.
Qed.

(** X7.  [ensure_gif_exists] writes at most one file: when at least one
    animation is listed, or when saving fails, the files stay as they
    were; when none is listed and saving works, exactly
    [default_dog.gif] is added to the user root.  The config is never
    touched. *)
Theorem ensure_gif_exists_fills_empty (gd ud : string) (saved : bool)
  (d : Disk) (m0 : GifManager) :
  snd (GifManager_init gd ud d) = Loaded m0 ->
  exists d',
    ensure_gif_exists gd ud saved d = Some d'
    /\ config d' = config d
    /\ (fst (get_gif_list d m0) <> [] -> files d' = files d)
    /\ (fst (get_gif_list d m0) = [] ->
        files d' = if saved then files d ++ [join ud "default_dog.gif"]
                   else files d).
Proof.
  intros Hl. rewrite (ensure_gif_exists_loaded gd ud saved d m0 Hl).
  destruct (GifManager_init_loaded gd ud d m0 Hl) as [_ [Hud _]].
  destruct (GifManager_init_creates_roots_files gd ud d) as [Hf Hc].
  eexists. split; [reflexivity |].
  destruct (fst (get_gif_list d m0)) as [| g gl] eqn:E.
  - assert (Hnew : is_file (fst (GifManager_init gd ud d))
                     (join ud "default_dog.gif") = false).
    { destruct (is_file _ _) eqn:F; [| reflexivity].
      assert (Hin : In (normalize (join ud "default_dog.gif"))
                       (discovered (fst (GifManager_init gd ud d)) m0)).
      { destruct (default_dog_split ud) as [Hdir Hbase].
        apply file_in_root_discovered; [assumption | now rewrite Hbase |].
        right. rewrite Hdir, Hud. apply same_path_eq. reflexivity. }
      rewrite (discovered_ext _ d m0 m0 Hf eq_refl eq_refl) in Hin.
      apply discovered_listed in Hin. rewrite E in Hin. contradiction. }
    destruct saved.
    + unfold save_image. rewrite Hnew.
      split; [exact Hc |]. split; [congruence |]. intros _.
      unfold copy_file. cbn [files]. now rewrite Hf.
    + split; [assumption |]. split; [congruence |]. now intros _.
  - split; [assumption |]. split; [now intros _ | discriminate].
Qed.

Lemma ensure_gif_exists_fills_empty_witness :
  exists d',
    ensure_gif_exists gifs_root gifs_root true no_gifs = Some d'
    /\ files d' = ["/pet/resources/gifs/default_dog.gif"].
Proof.
  destruct (ensure_gif_exists_fills_empty gifs_root gifs_root true no_gifs
              (mkGifManager gifs_root gifs_root None []) eq_refl)
    as [d' [He [_ [_ Hf]]]].
  exists d'. split; [exact He | exact (Hf eq_refl)].
Defined.



(** ** Import, once more *)

Lemma is_file_normalize (d : Disk) (p : string) :
  is_file d (normalize p) = is_file d p.
Proof.
  unfold is_file, same_path.
  induction (files d) as [| f fs IH]; simpl; [reflexivity |].
  now rewrite IH, normalize_idem.
Qed.

Lemma add_gif_effect (d : Disk) (m : GifManager) (src : string) :
  snd (add_gif d m src) = d
  \/ (snd (add_gif d m src)
      = copy_file d (join (user_gif_dir m) (basename src))
      /\ path_exists d (join (user_gif_dir m) (basename src)) = false
      /\ is_file d src = true).
Proof.
  unfold add_gif. destruct (path_exists d src); simpl; [| now left].
  destruct (path_exists d (join (user_gif_dir m) (basename src)));
    [now left |].
  destruct (is_file d src); [right; tauto | now left].
Qed.

(** X9.  [add_gif] never overwrites and never removes: every file that
    existed still exists, directories and config are untouched, and the
    only file that can appear is [user_gif_dir/basename(source)], and only
    if nothing had that path; a source that does not exist raises
    [FileNotFoundError] and changes nothing. *)
Theorem add_gif_never_overwrites (d : Disk) (m : GifManager) (src : string) :
  (forall q, is_file d q = true -> is_file (snd (add_gif d m src)) q = true)
  /\ dirs (snd (add_gif d m src)) = dirs d
  /\ config (snd (add_gif d m src)) = config d
  /\ (files (snd (add_gif d m src)) = files d
      \/ (files (snd (add_gif d m src))
          = files d ++ [join (user_gif_dir m) (basename src)]
          /\ path_exists d (join (user_gif_dir m) (basename src)) = false))
  /\ (path_exists d src = false ->
      add_gif d m src = (Raised FileNotFoundError, d)).
Proof.
  split; [| split; [| split; [| split]]].
  - intros q Hq. destruct (add_gif_effect d m src) as [-> | [-> _]];
      [assumption | now apply is_file_copy_mono].
  - destruct (add_gif_effect d m src) as [-> | [-> _]]; reflexivity.
  - destruct (add_gif_effect d m src) as [-> | [-> _]]; reflexivity.
  - destruct (add_gif_effect d m src) as [-> | [-> [H _]]];
      [now left | right; now split].
  - intros H. unfold add_gif. now rewrite H.
Qed.

Lemma add_gif_never_overwrites_witness :
  add_gif two_gifs fresh_manager "/gone/c.gif"
  = (Raised FileNotFoundError, two_gifs).
Proof.
  exact (proj2 (proj2 (proj2 (proj2
           (add_gif_never_overwrites two_gifs fresh_manager "/gone/c.gif"))))
           eq_refl).
Defined.

(** X10.  Importing an existing file named [*.gif] (with no directory in
    the way of its copy) ends with the copy in the user root playing and
    listed in the animation menu; no file that existed is lost. *)
Theorem import_gif_plays_import (src : string) (w : Pet) :
  is_file (disk w) src = true ->
  is_gif (basename src) = true ->
  is_dir (disk w) (join (user_gif_dir (mgr w)) (basename src)) = false ->
  movie (import_gif src w)
  = normalize (join (user_gif_dir (mgr w)) (basename src))
  /\ In (movie (import_gif src w)) (menu (import_gif src w))
  /\ (forall q, is_file (disk w) q = true ->
        is_file (disk (import_gif src w)) q = true).
Proof.
  intros Hsrc Hgif Hdir.
  set (t := join (user_gif_dir (mgr w)) (basename src)) in *.
  destruct (join_split (user_gif_dir (mgr w)) (basename src)
              (is_gif_nonempty _ Hgif) (has_sep_basename src))
    as [Hdn Hbn]. fold t in Hdn, Hbn.
  assert (A : exists d', add_gif (disk w) (mgr w) src = (Returned t, d')
                         /\ is_file d' t = true
                         /\ forall q, is_file (disk w) q = true ->
                                      is_file d' q = true).
  { rewrite (add_gif_of_file _ _ _ Hsrc). fold t.
    destruct (path_exists (disk w) t) eqn:E.
    - exists (disk w). split; [reflexivity |]. split; [| tauto].
      unfold path_exists in E. rewrite Hdir, orb_false_r in E. exact E.
    - exists (copy_file (disk w) t). split; [reflexivity |].
      split; [apply is_file_copy_target |].
      intros q. apply is_file_copy_mono. }
  destruct A as [d' [Ha [Ht Hkeep]]].
  unfold import_gif. rewrite Ha.
  assert (Hload : load_animation t (mkPet d' (mgr w) (movie w) (menu w))
                  = mkPet d' (mgr w) (normalize t) (menu w)).
  { unfold load_animation, path_exists. simpl disk.
    now rewrite is_file_normalize, Ht. }
  rewrite Hload. unfold update_animation_menu. simpl disk. simpl mgr.
  destruct (get_gif_list d' (mgr w)) as [gl m1] eqn:G. simpl.
  split; [reflexivity |]. split; [| exact Hkeep].
  replace gl with (fst (get_gif_list d' (mgr w))) by now rewrite G.
  apply discovered_listed, file_in_root_discovered;
    [assumption | now rewrite Hbn |].
  right. rewrite Hdn. apply same_path_eq. reflexivity.
Qed.

Lemma import_gif_plays_import_witness :
  movie (import_gif import_source (mkPet with_download fresh_manager a_gif []))
  = "/pet/resources/gifs/c.gif"
  /\ In (movie (import_gif import_source
                  (mkPet with_download fresh_manager a_gif [])))
        (menu (import_gif import_source
                 (mkPet with_download fresh_manager a_gif []))).
Proof.
  destruct (import_gif_plays_import import_source
              (mkPet with_download fresh_manager a_gif [])
              eq_refl eq_refl eq_refl) as [Hm [Hin _]].
  split; [exact Hm | exact Hin].
Defined.

(** ** Removal, once more *)

Lemma is_file_os_remove_self (d : Disk) (p : string) :
  is_file (os_remove d p) p = false.
Proof.
  unfold is_file, os_remove. simpl.
  induction (files d) as [| f fs IH]; simpl; [reflexivity |].
  destruct (same_path f p) eqn:E; simpl; [assumption |].
  now rewrite E.
Qed.

Lemma finish_removal_done (d : Disk) (m : GifManager) (t : string)
  (reset : bool) :
  is_file d t = true ->
  finish_removal d m t reset
  = (Returned true, os_remove (save_config d m) t,
     if reset then with_default m None else m).
Proof.
  intros H. unfold finish_removal. now rewrite is_file_save_config, H.
Qed.

(** X11.  [remove_gif] answers False exactly when neither the path itself
    nor a file of the same name in the built-in root or in the user root
    exists, and in that case it has changed nothing: no file, no
    directory, not the config, not the order in memory. *)
Theorem remove_gif_false_iff (d : Disk) (m : GifManager) (p : string) :
  (fst (fst (remove_gif d m p)) = Returned false <->
   path_exists d (normalize p) = false
   /\ path_exists d (join (gif_dir m) (basename (normalize p))) = false
   /\ path_exists d (join (user_gif_dir m) (basename (normalize p))) = false)
  /\ (fst (fst (remove_gif d m p)) = Returned false ->
      remove_gif d m p = (Returned false, d, m)).
Proof.
  split; [| apply remove_gif_not_found].
  unfold remove_gif. destruct (path_exists d (normalize p)) eqn:E1.
  - rewrite purge_filter. split.
    + intros H. now apply finish_removal_not_false in H.
    + intros [H _]. discriminate.
  - simpl remove_by_name. rewrite !purge_filter.
    destruct (path_exists d (join (gif_dir m) (basename (normalize p))))
      eqn:E2.
    + split; [intros H; now apply finish_removal_not_false in H |].
      intros [_ [H _]]. discriminate.
    + destruct (path_exists d
                  (join (user_gif_dir m) (basename (normalize p)))) eqn:E3.
      * split; [intros H; now apply finish_removal_not_false in H |].
        intros [_ [_ H]]. discriminate.
      * simpl. tauto.
Qed.

Lemma remove_gif_false_iff_witness :
  remove_gif two_gifs fresh_manager "/gone/c.gif"
  = (Returned false, two_gifs, fresh_manager).
Proof.
  apply (proj2 (remove_gif_false_iff two_gifs fresh_manager "/gone/c.gif")).
  apply (proj1 (remove_gif_false_iff two_gifs fresh_manager "/gone/c.gif")).
  repeat split.
Defined.

(** X12.  When the path given to [remove_gif] does not exist but the
    built-in root holds a file of that name, that file is the one deleted
    (the user root is not even looked at), the answer is True, every other
    file stays, and the order loses exactly the entries with that file
    name; when only the user root holds such a file, the same happens
    there. *)
Theorem remove_gif_by_name (d : Disk) (m : GifManager) (p : string) :
  path_exists d (normalize p) = false ->
  forall root,
    (root = gif_dir m
     \/ (root = user_gif_dir m
         /\ path_exists d (join (gif_dir m) (basename (normalize p)))
            = false)) ->
    is_file d (join root (basename (normalize p))) = true ->
    fst (fst (remove_gif d m p)) = Returned true
    /\ is_file (snd (fst (remove_gif d m p)))
         (join root (basename (normalize p))) = false
    /\ (forall q, same_path q (join root (basename (normalize p))) = false ->
          is_file (snd (fst (remove_gif d m p))) q = is_file d q)
    /\ custom_order (snd (remove_gif d m p))
       = filter (fun q => negb (String.eqb (basename q)
                                  (basename (normalize p))))
                (custom_order m).
Proof.
  intros He root Hroot Hf.
  set (name := basename (normalize p)) in *.
  assert (R : exists reset,
             remove_gif d m p
             = finish_removal d
                 (with_order m
                    (filter (fun q => negb (String.eqb (basename q) name))
                            (custom_order m)))
                 (join root name) reset).
  { unfold remove_gif. rewrite He. fold name. simpl remove_by_name.
    rewrite !purge_filter.
    assert (Hp : path_exists d (join root name) = true)
      by (unfold path_exists; now rewrite Hf).
    destruct Hroot as [-> | [-> Hno]].
    - rewrite Hp. eexists. reflexivity.
    - rewrite Hno, Hp. eexists. reflexivity. }
  destruct R as [reset ->]. rewrite (finish_removal_done _ _ _ _ Hf).
  simpl fst. simpl snd.
  split; [reflexivity |]. split; [apply is_file_os_remove_self |].
  split.
  - intros q Hq. now rewrite is_file_os_remove, is_file_save_config.
  - destruct reset; reflexivity.
Qed.

Lemma remove_gif_by_name_witness :
  fst (fst (remove_gif two_roots packaged_manager "/moved/a.gif"))
  = Returned true
  /\ is_file (snd (fst (remove_gif two_roots packaged_manager "/moved/a.gif")))
       a_gif = false
  /\ is_file (snd (fst (remove_gif two_roots packaged_manager "/moved/a.gif")))
       user_a_gif = true
  /\ custom_order (snd (remove_gif two_roots packaged_manager "/moved/a.gif"))
     = [b_gif].
Proof.
  destruct (remove_gif_by_name two_roots packaged_manager "/moved/a.gif"
              eq_refl gifs_root (or_introl eq_refl) eq_refl)
    as [Hr [Hgone [Hkeep Ho]]].
  split; [exact Hr |]. split; [exact Hgone |].
  split; [exact (Hkeep user_a_gif eq_refl) | exact Ho].
Defined.

(** ** Deleting the playing animation *)


Lemma discovered_os_remove (d : Disk) (m : GifManager) (p x : string) :
  In x (discovered (os_remove d p) m) <->
  In x (discovered d m) /\ x <> normalize p.
Proof.
  rewrite !discovered_In. unfold os_remove. cbn [files]. split.
  - intros [f [Hf [-> H]]]. apply filter_In in Hf. destruct Hf as [Hf Hs].
    apply negb_true_iff in Hs. split; [exists f; tauto |].
    intros E. apply same_path_eq in E. congruence.
  - intros [[f [Hf [-> H]]] Hne]. exists f. split; [| tauto].
    apply filter_In. split; [assumption |]. apply negb_true_iff.
    destruct (same_path f p) eqn:E; [| reflexivity].
    apply same_path_eq in E. contradiction.
Qed.

Lemma save_config_files (d : Disk) (m : GifManager) :
  files (save_config d m) = files d.
Proof. unfold save_config. destruct (config_writable d); reflexivity. Qed.

Lemma listed_map_normalize (d : Disk) (m : GifManager) :
  map (fun gif => normalize (abspath gif)) (fst (get_gif_list d m))
  = fst (get_gif_list d m).
Proof.
  unfold abspath. apply map_normalize_fixed, Forall_forall.
  intros g Hg. now apply listed_is_file in Hg.
Qed.






(** X14.  Deleting the file that is the remembered default forgets it:
    [remove_gif] answers True, no default is remembered any more, and the
    next [get_default_gif] is computed from the ordered list of the new
    disk, so it never returns the deleted file. *)
Theorem remove_gif_resets_default (d : Disk) (m : GifManager) (p : string) :
  default_gif m = Some (normalize p) ->
  is_file d (normalize p) = true ->
  fst (fst (remove_gif d m p)) = Returned true
  /\ default_gif (snd (remove_gif d m p)) = None
  /\ fst (get_default_gif (snd (fst (remove_gif d m p)))
                          (snd (remove_gif d m p)))
     = match fst (get_gif_list (snd (fst (remove_gif d m p)))
                               (snd (remove_gif d m p))) with
       | g :: _ => Returned g
       | [] => Raised FileNotFoundError
       end
  /\ fst (get_default_gif (snd (fst (remove_gif d m p)))
                          (snd (remove_gif d m p)))
     <> Returned (normalize p).
Proof.
  intros Hdef Hf.
  rewrite remove_gif_by_path by (unfold path_exists; now rewrite Hf).
  rewrite finish_removal_done by assumption. cbn [fst snd].
  rewrite Hdef. cbn [opt_str_eqb]. rewrite String.eqb_refl.
  set (m2 := with_default _ None).
  set (d2 := os_remove _ (normalize p)).
  split; [reflexivity |]. split; [reflexivity |].
  rewrite get_default_gif_unset by reflexivity.
  destruct (fst (get_gif_list d2 m2)) as [| g gl] eqn:E; cbn [fst].
  - split; [reflexivity | discriminate].
  - split; [reflexivity |]. intros [= ->].
    assert (Hin : In (normalize p) (fst (get_gif_list d2 m2)))
      by (rewrite E; now left).
    apply get_gif_list_discovered in Hin. unfold d2 in Hin.
    apply discovered_os_remove in Hin. destruct Hin as [_ Hne].
    now rewrite normalize_idem in Hne.
Qed.

Lemma remove_gif_resets_default_witness :
  default_gif (snd (remove_gif two_gifs default_a a_gif)) = None
  /\ fst (get_default_gif (snd (fst (remove_gif two_gifs default_a a_gif)))
                          (snd (remove_gif two_gifs default_a a_gif)))
     <> Returned (normalize a_gif).
Proof.
  destruct (remove_gif_resets_default two_gifs default_a a_gif
              eq_refl eq_refl) as [_ [Hd [_ Hne]]].
  split; [exact Hd | exact Hne].
Defined.

(** X15.  [delete_current_gif] itself never touches the disk.  What it
    schedules, if anything, is the deletion of the playing file after a
    confirmed dialog, with an entry of the ordered list as the animation
    to load next, and only then is the movie stopped; whenever nothing is
    scheduled the movie keeps playing. *)
Theorem delete_current_gif_defers (confirmed : bool) (w : Pet) :
  disk (snd (delete_current_gif confirmed w)) = disk w
  /\ (forall g n,
        fst (delete_current_gif confirmed w) = Scheduled g n ->
        confirmed = true
        /\ movie w <> ""
        /\ g = normalize (movie w)
        /\ In n (fst (get_gif_list (disk w) (mgr w)))
        /\ movie (snd (delete_current_gif confirmed w)) = "")
  /\ ((forall g n, fst (delete_current_gif confirmed w) <> Scheduled g n) ->
      movie (snd (delete_current_gif confirmed w)) = movie w).
Proof.
  unfold delete_current_gif.
  destruct (String.eqb (movie w) "") eqn:Hm.
  { cbn [fst snd]. split; [reflexivity |]. split; [discriminate | tauto]. }
  destruct confirmed.
  2: { cbn [fst snd]. split; [reflexivity |].
       split; [discriminate | tauto]. }
  pose proof (listed_map_normalize (disk w) (mgr w)) as Hmap.
  destruct (get_gif_list (disk w) (mgr w)) as [gl m1]. cbn [fst] in *.
  rewrite Hmap.
  destruct (List.length gl <=? 1)%nat.
  { cbn [fst snd disk movie]. split; [reflexivity |].
    split; [discriminate | tauto]. }
  destruct (find_by_name _ gl) as [i |].
  2: { cbn [fst snd disk movie]. split; [reflexivity |].
       split; [discriminate | tauto]. }
  destruct (nth_error gl _) as [next |] eqn:Hn.
  2: { cbn [fst snd disk movie]. split; [reflexivity |].
       split; [discriminate | tauto]. }
  cbn [fst snd disk movie]. split; [reflexivity |]. split.
  - intros g n [= <- <-]. split; [reflexivity |].
    split; [now apply String.eqb_neq |]. split; [reflexivity |].
    split; [now apply nth_error_In in Hn | reflexivity].
  - intros H. now destruct (H _ _ eq_refl).
Qed.

Lemma delete_current_gif_defers_witness :
  fst (delete_current_gif true playing_a) = Scheduled a_gif b_gif
  /\ movie (snd (delete_current_gif true playing_a)) = ""
  /\ movie (snd (delete_current_gif false playing_a)) = a_gif.
Proof.
  split; [reflexivity |]. split.
  - exact (proj2 (proj2 (proj2 (proj2
             (proj1 (proj2 (delete_current_gif_defers true playing_a))
                _ _ eq_refl))))).
  - apply (proj2 (proj2 (delete_current_gif_defers false playing_a))).
    discriminate.
Defined.

(** ** The auto-switch timer *)

Lemma auto_switch_step_keeps (a : AutoSwitch) (act : switch_action) :
  timer_follows_settings a ->
  timer_follows_settings (auto_switch_step a act).
Proof.
  unfold timer_follows_settings. intros H.
  destruct act as [enabled | seconds]; simpl.
  - destruct enabled; reflexivity.
  - rewrite H. destruct (auto_switch_enabled a); reflexivity.
Qed.

Lemma auto_switch_run_keeps (acts : list switch_action) :
  forall a, timer_follows_settings a ->
            timer_follows_settings (fold_left auto_switch_step acts a).
Proof.
  induction acts as [| act acts IH]; intros a H; simpl; [assumption |].
  now apply IH, auto_switch_step_keeps.
Qed.

Lemma auto_switch_run_interval (acts : list switch_action) :
  forall a,
    auto_switch_interval (fold_left auto_switch_step acts a)
    = fold_left (fun ms act =>
                   match act with
                   | PickInterval seconds => (seconds * 1000)%Z
                   | ToggleAutoSwitch _ => ms
                   end) acts (auto_switch_interval a).
Proof.
  induction acts as [| act acts IH]; intros a; simpl; [reflexivity |].
  rewrite IH. destruct act; reflexivity.
Qed.

(** X16.  Whatever sequence of menu actions (switching auto-switch on or
    off, picking an interval) the window has seen since it was built, the
    timer runs exactly when auto-switch is enabled, and it runs with the
    interval picked last (2 minutes if none was picked), also when the
    interval was picked while auto-switch was off; [closeEvent] always
    leaves it stopped. *)
Theorem auto_switch_timer_follows (acts : list switch_action) :
  timer_follows_settings (fold_left auto_switch_step acts AutoSwitch_init)
  /\ auto_switch_interval (fold_left auto_switch_step acts AutoSwitch_init)
     = fold_left (fun ms act =>
                    match act with
                    | PickInterval seconds => (seconds * 1000)%Z
                    | ToggleAutoSwitch _ => ms
                    end) acts 120000%Z
  /\ auto_switch_timer
       (closeEvent (fold_left auto_switch_step acts AutoSwitch_init)) = None.
Proof.
  split; [| split].
  - apply auto_switch_run_keeps. reflexivity.
  - apply auto_switch_run_interval.
  - reflexivity.
Qed.

(** ** Dragging *)

Lemma mouse_moves_dragging (globals : list (Z * Z)) :
  forall s, is_dragging s = true ->
    is_dragging (mouse_moves globals s) = true
    /\ drag_position (mouse_moves globals s) = drag_position s.
Proof.
  unfold mouse_moves.
  induction globals as [| g gs IH]; intros s H; simpl; [now split |].
  unfold mouseMoveEvent at 2 4. rewrite H.
  destruct (IH (mkDrag (point_sub g (drag_position s)) true
                       (drag_position s)) eq_refl) as [H1 H2].
  split; assumption.
Qed.

Lemma mouse_moves_idle (globals : list (Z * Z)) (s : Drag) :
  is_dragging s = false -> mouse_moves globals s = s.
Proof.
  unfold mouse_moves. intros H.
  induction globals as [| g gs IH]; simpl; [reflexivity |].
  unfold mouseMoveEvent at 2. now rewrite H.
Qed.

Lemma mouse_moves_last (globals : list (Z * Z)) (g : Z * Z) (s : Drag) :
  is_dragging s = true ->
  window_pos (mouse_moves (globals ++ [g]) s)
  = point_sub g (drag_position s).
Proof.
  intros H. destruct (mouse_moves_dragging globals s H) as [H1 H2].
  unfold mouse_moves in *. rewrite fold_left_app. simpl.
  unfold mouseMoveEvent at 1. now rewrite H1, H2.
Qed.

(** X17.  Dragging with the left button moves the window by exactly the
    displacement of the cursor since the press, whatever the path of the
    cursor in between; once the button is released, further moves of the
    mouse leave the window where it is, as do moves without any press. *)
Theorem drag_follows_cursor (s : Drag) (g0 g : Z * Z)
  (between after : list (Z * Z)) :
  let dragged :=
    mouse_moves (between ++ [g]) (mousePressEvent LeftButton g0 s) in
  window_pos dragged
  = (fst (window_pos s) + (fst g - fst g0),
     snd (window_pos s) + (snd g - snd g0))%Z
  /\ window_pos (mouse_moves after (mouseReleaseEvent LeftButton dragged))
     = window_pos dragged
  /\ (is_dragging s = false -> mouse_moves after s = s).
Proof.
  intros dragged.
  assert (Hd : window_pos dragged
               = (fst (window_pos s) + (fst g - fst g0),
                  snd (window_pos s) + (snd g - snd g0))%Z).
  { unfold dragged. rewrite mouse_moves_last by reflexivity.
    unfold point_sub. simpl. f_equal; lia. }
  split; [exact Hd |]. split.
  - now rewrite mouse_moves_idle.
  - apply mouse_moves_idle.
Qed.

Lemma drag_follows_cursor_witness :
  window_pos
    (mouse_moves ([(5, 5); (40, 2)] ++ [(30, 50)])%Z
       (mousePressEvent LeftButton (10, 10)%Z
          (mkDrag (100, 200)%Z false (0, 0)%Z)))
  = (120, 240)%Z
  /\ mouse_moves [(7, 7)%Z] (mkDrag (100, 200)%Z false (0, 0)%Z)
     = mkDrag (100, 200)%Z false (0, 0)%Z.
Proof.
  destruct (drag_follows_cursor (mkDrag (100, 200)%Z false (0, 0)%Z)
              (10, 10)%Z (30, 50)%Z [(5, 5); (40, 2)]%Z [(7, 7)%Z])
    as [H1 [_ H3]].
  split; [exact H1 | exact (H3 eq_refl)].
Defined.

(** ** The tray icon *)

Lemma glob_ext_mkdir (d : Disk) (p dir ext : string) :
  glob_ext (mkdir d p) dir ext = glob_ext d dir ext.
Proof. unfold glob_ext. now rewrite mkdir_files. Qed.

Lemma glob_ext_In (d : Disk) (dir ext f : string) :
  In f (glob_ext d dir ext) ->
  is_file d f = true /\ same_path (dirname f) dir = true
  /\ has_ext ext (basename f) = true.
Proof.
  unfold glob_ext. rewrite filter_In, andb_true_iff. intros [Hf [Hd He]].
  split; [| tauto]. unfold is_file. apply existsb_exists. exists f.
  split; [assumption |]. apply same_path_eq. reflexivity.
Qed.

Lemma setup_icon_fallback (bi di : string) (d : Disk) :
  path_exists d (join bi "doraemon.jpg") = false ->
  fst (setup_icon bi di d)
  = match glob_ext d (if path_exists d di then di else bi) ".jpg"
          ++ glob_ext d (if path_exists d di then di else bi) ".png"
          ++ glob_ext d (if path_exists d di then di else bi) ".ico"
          ++ glob_ext d (if path_exists d di then di else bi) ".gif" with
    | f :: _ => IconFile f
    | [] => DrawnIcon
    end
  /\ files (snd (setup_icon bi di d)) = files d.
Proof.
  intros H. unfold setup_icon. rewrite H.
  destruct (path_exists d di).
  - destruct (glob_ext d di ".jpg"); [| now split].
    cbn [app].
    destruct (glob_ext d di ".png" ++ glob_ext d di ".ico"
              ++ glob_ext d di ".gif"); now split.
  - assert (G : forall d1, files d1 = files d ->
                  fst (match glob_ext d1 bi ".jpg" with
                       | f :: _ => (IconFile f, d1)
                       | [] =>
                           match glob_ext d1 bi ".png"
                                 ++ glob_ext d1 bi ".ico"
                                 ++ glob_ext d1 bi ".gif" with
                           | f :: _ => (IconFile f, d1)
                           | [] => (DrawnIcon, d1)
                           end
                       end)
                  = match glob_ext d bi ".jpg" ++ glob_ext d bi ".png"
                          ++ glob_ext d bi ".ico" ++ glob_ext d bi ".gif" with
                    | f :: _ => IconFile f
                    | [] => DrawnIcon
                    end
                  /\ files (snd (match glob_ext d1 bi ".jpg" with
                                 | f :: _ => (IconFile f, d1)
                                 | [] =>
                                     match glob_ext d1 bi ".png"
                                           ++ glob_ext d1 bi ".ico"
                                           ++ glob_ext d1 bi ".gif" with
                                     | f :: _ => (IconFile f, d1)
                                     | [] => (DrawnIcon, d1)
                                     end
                                 end)) = files d).
    { intros d1 Hf. unfold glob_ext. rewrite Hf.
      fold (glob_ext d bi ".jpg"). fold (glob_ext d bi ".png").
      fold (glob_ext d bi ".ico"). fold (glob_ext d bi ".gif").
      destruct (glob_ext d bi ".jpg"); [| now split]. cbn [app].
      destruct (glob_ext d bi ".png" ++ glob_ext d bi ".ico"
                ++ glob_ext d bi ".gif"); now split. }
    destruct (path_exists d bi); apply G; [reflexivity | apply mkdir_files].
Qed.

(** X18.  The tray icon is chosen by tiers: [doraemon.jpg] of the bundled
    icon directory whenever it exists; otherwise the first [*.jpg] of the
    searched directory (the desktop one if present, else the bundled one),
    then the first [*.png], [*.ico] or [*.gif] in that order, and the drawn
    icon only when the directory holds none of them.  A file chosen exists,
    a jpg in the directory is never passed over for another kind, and no
    file is created or removed. *)
Theorem setup_icon_tiers (bi di : string) (d : Disk) :
  files (snd (setup_icon bi di d)) = files d
  /\ (path_exists d (join bi "doraemon.jpg") = true ->
      fst (setup_icon bi di d) = IconFile (join bi "doraemon.jpg"))
  /\ (path_exists d (join bi "doraemon.jpg") = false ->
      fst (setup_icon bi di d)
      = match glob_ext d (if path_exists d di then di else bi) ".jpg"
              ++ glob_ext d (if path_exists d di then di else bi) ".png"
              ++ glob_ext d (if path_exists d di then di else bi) ".ico"
              ++ glob_ext d (if path_exists d di then di else bi) ".gif" with
        | f :: _ => IconFile f
        | [] => DrawnIcon
        end)
  /\ (forall p, fst (setup_icon bi di d) = IconFile p ->
        path_exists d p = true)
  /\ (path_exists d (join bi "doraemon.jpg") = false ->
      glob_ext d (if path_exists d di then di else bi) ".jpg" <> [] ->
      exists p, fst (setup_icon bi di d) = IconFile p
                /\ has_ext ".jpg" (basename p) = true).
Proof.
  destruct (path_exists d (join bi "doraemon.jpg")) eqn:E.
  - assert (R : setup_icon bi di d = (IconFile (join bi "doraemon.jpg"), d))
      by (unfold setup_icon; now rewrite E).
    rewrite R. cbn [fst snd].
    split; [reflexivity |]. split; [reflexivity |].
    split; [discriminate |]. split; [| discriminate].
    now intros p [= <-].
  - destruct (setup_icon_fallback bi di d E) as [Hr Hf].
    split; [exact Hf |]. split; [discriminate |].
    split; [now intros _ |]. rewrite Hr.
    set (dir := if path_exists d di then di else bi).
    split.
    + intros p Hp.
      assert (Hin : In p (glob_ext d dir ".jpg" ++ glob_ext d dir ".png"
                          ++ glob_ext d dir ".ico" ++ glob_ext d dir ".gif")).
      { destruct (glob_ext d dir ".jpg" ++ _) as [| f l];
          [discriminate |]. injection Hp as ->. now left. }
      unfold path_exists.
      repeat (apply in_app_or in Hin; destruct Hin as [Hin | Hin]);
        apply glob_ext_In in Hin; destruct Hin as [-> _]; reflexivity.
    + intros _ Hjpg. destruct (glob_ext d dir ".jpg") as [| f l] eqn:J;
        [congruence |].
      exists f. split; [reflexivity |].
      assert (Hin : In f (glob_ext d dir ".jpg")) by (rewrite J; now left).
      now apply glob_ext_In in Hin.
Qed.

Lemma setup_icon_tiers_witness :
  fst (setup_icon bundled_icons_dir desktop_icons_dir with_icons)
  = IconFile "/pet/resources/icons/cat.jpg"
  /\ path_exists with_icons "/pet/resources/icons/cat.jpg" = true.
Proof.
  destruct (setup_icon_tiers bundled_icons_dir desktop_icons_dir with_icons)
    as [_ [_ [H3 [H4 _]]]].
  split; [exact (H3 eq_refl) | exact (H4 _ (H3 eq_refl))].
Defined.

(** ** Reordering, witnessed *)

Lemma customize_gif_order_permutation_witness :
  fst (customize_gif_order (Numbers [2; 1]%Z) playing_a) = Some OrderUpdated
  /\ fst (get_gif_list
            (disk (snd (customize_gif_order (Numbers [2; 1]%Z) playing_a)))
            (mgr (snd (customize_gif_order (Numbers [2; 1]%Z) playing_a))))
     = [b_gif; a_gif].
Proof.
  destruct (customize_gif_order_permutation [2; 1]%Z playing_a)
    as [H1 [_ H3]].
  - discriminate.
  - apply perm_swap.
  - split; [exact H1 | exact H3].
Defined.

Lemma customize_gif_order_refused_witness :
  fst (customize_gif_order (Numbers [3; 1]%Z) playing_a) = Some InvalidIndex
  /\ fst (customize_gif_order (Numbers [1]%Z) playing_a) = Some CountMismatch
  /\ disk (snd (customize_gif_order (Numbers [3; 1]%Z) playing_a)) = two_gifs.
Proof.
  destruct (customize_gif_order_refused [3; 1]%Z playing_a)
    as [_ H2]; [discriminate | left; reflexivity |].
  split; [reflexivity |]. split; [reflexivity | exact H2].
Defined.

(** ** Removal: the loop, the file, the directory *)

(** X21.  The loop of [remove_gif] that walks a copy of the order and
    calls [remove] on the live list for each matching entry never raises
    [ValueError], and it leaves exactly the entries that do not match, in
    their original sequence, however often a matching path is repeated in
    the order. *)
Theorem remove_loop_is_filter (cond : string -> bool) (order : list string) :
  purge cond order = Some (filter (fun path => negb (cond path)) order)
  /\ (forall path, In path order -> cond path = true ->
        forall kept, purge cond order = Some kept -> ~ In path kept)
  /\ (forall path, In path order -> cond path = false ->
        forall kept, purge cond order = Some kept -> In path kept).
Proof.
  pose proof (purge_filter cond order) as H.
  split; [exact H |]. split.
  - intros path _ Hc kept Hk. rewrite H in Hk. injection Hk as <-.
    rewrite filter_In, Hc. intros [_ F]. discriminate.
  - intros path Hin Hc kept Hk. rewrite H in Hk. injection Hk as <-.
    apply filter_In. now rewrite Hc.
Qed.

Lemma remove_loop_is_filter_witness :
  purge (fun path => String.eqb (basename path) "a.gif")
        [a_gif; b_gif; user_a_gif; a_gif]
  = Some [b_gif].
Proof.
  exact (proj1 (remove_loop_is_filter
                  (fun path => String.eqb (basename path) "a.gif")
                  [a_gif; b_gif; user_a_gif; a_gif])).
Defined.

(** X22.  [remove_gif] on the path of an existing file answers True and
    the file is gone, while the directories stay; on a path that exists
    but is a directory, [os.remove] raises, no file is removed, yet the
    order has already been purged and saved by then. *)
Theorem remove_gif_file_or_directory (d : Disk) (m : GifManager)
  (p : string) :
  (is_file d (normalize p) = true ->
   fst (fst (remove_gif d m p)) = Returned true
   /\ is_file (snd (fst (remove_gif d m p))) p = false
   /\ dirs (snd (fst (remove_gif d m p))) = dirs d)
  /\ (is_file d (normalize p) = false -> is_dir d (normalize p) = true ->
      fst (fst (remove_gif d m p)) = Raised OSError
      /\ files (snd (fst (remove_gif d m p))) = files d
      /\ snd (fst (remove_gif d m p))
         = save_config d (snd (remove_gif d m p))
      /\ custom_order (snd (remove_gif d m p))
         = filter (fun q => negb (names_deleted (normalize p) q))
                  (custom_order m)).
Proof.
  split.
  - intros Hf.
    rewrite remove_gif_by_path by (unfold path_exists; now rewrite Hf).
    rewrite finish_removal_done by assumption. cbn [fst snd].
    split; [reflexivity |]. split.
    + rewrite <- is_file_normalize. apply is_file_os_remove_self.
    + unfold os_remove, save_config.
      destruct (config_writable d); reflexivity.
  - intros Hf Hd.
    rewrite remove_gif_by_path
      by (unfold path_exists; now rewrite Hf, Hd).
    unfold finish_removal. rewrite is_file_save_config, Hf. cbn [fst snd].
    split; [reflexivity |]. split; [apply save_config_files |].
    split; reflexivity.
Qed.

Lemma remove_gif_file_or_directory_witness :
  fst (fst (remove_gif two_gifs fresh_manager a_gif)) = Returned true
  /\ is_file (snd (fst (remove_gif two_gifs fresh_manager a_gif))) a_gif
     = false
  /\ fst (fst (remove_gif two_gifs fresh_manager root_as_path))
     = Raised OSError.
Proof.
  destruct (proj1 (remove_gif_file_or_directory two_gifs fresh_manager a_gif)
              eq_refl) as [H1 [H2 _]].
  destruct (proj2 (remove_gif_file_or_directory two_gifs fresh_manager
                     root_as_path) eq_refl eq_refl) as [H3 _].
  split; [exact H1 |]. split; [exact H2 | exact H3].
Defined.

Lemma update_animation_menu_keeps (w : Pet) :
  disk (update_animation_menu w) = disk w
  /\ movie (update_animation_menu w) = movie w.
Proof.
  unfold update_animation_menu.
  destruct (get_gif_list (disk w) (mgr w)); now split.
Qed.

Lemma load_animation_movie (g : string) (w : Pet) :
  movie (load_animation g w)
  = if path_exists (disk w) (normalize g) then normalize g else movie w.
Proof.
  unfold load_animation. destruct (path_exists (disk w) (normalize g));
    reflexivity.
Qed.

Lemma load_animation_disk (g : string) (w : Pet) :
  disk (load_animation g w) = disk w.
Proof.
  unfold load_animation. destruct (path_exists (disk w) (normalize g));
    reflexivity.
Qed.

(** X23.  However the removal ends (True, False or an exception),
    [_complete_deletion] finishes by loading the next animation: if that
    path exists on the disk it leaves behind, it is the one playing;
    otherwise the movie is as it was.  A message is shown unless the
    removal raised. *)
Theorem complete_deletion_always_loads_next (p next : string) (w : Pet) :
  movie (snd (_complete_deletion p next w))
  = (if path_exists (disk (snd (_complete_deletion p next w)))
          (normalize next)
     then normalize next else movie w)
  /\ disk (snd (_complete_deletion p next w))
     = snd (fst (remove_gif (disk w) (mgr w) p))
  /\ fst (_complete_deletion p next w)
     = match fst (fst (remove_gif (disk w) (mgr w) p)) with
       | Returned true => Some DeleteSucceeded
       | Returned false => Some DeleteFailed
       | Raised _ => None
       end.
Proof.
  unfold _complete_deletion.
  destruct (remove_gif (disk w) (mgr w) p) as [[o d1] m1]. cbn [fst snd].
  destruct o as [[|] | e]; cbn [fst snd];
    rewrite load_animation_movie, load_animation_disk.
  - destruct (update_animation_menu_keeps (mkPet d1 m1 (movie w) (menu w)))
      as [-> ->]. now split.
  - now split.
  - now split.
Qed.
